(** * unixsocketqueue.py: lines read from a unix socket into a queue

    A shallow embedding of [src/unixsocketqueue.py] and the properties of
    its line reassembly, escape filtering, queue hand-off and socket
    lifecycle.

    Python values are embedded as follows.
    - A [str] is the list of its code points ([Text]); '\n' is 10, ESC is 27.
    - A [bytes] object is a [list byte].
    - An [io.StringIO] is its content together with the stream position.
    - The [multiprocessing.Queue] shared by the listener process and the
      polling caller is the list of the lines it holds, oldest first; it is
      threaded through every function that touches it.
    - Exceptions are values of [Exn]; a call that may raise returns a
      [Result]. *)

From Stdlib Require Import NArith Strings.Byte Strings.Ascii.
From stdpp Require Import base option list strings gmap.

Local Open Scope N_scope.

(** ** Text *)

(** A character is its code point. *)
Abbreviation Char := N (only parsing).
Abbreviation Text := (list N) (only parsing).

Definition NL : Char := 10.          (* "\n" *)
Definition ESC : Char := 27.         (* "\x1B" *)
Definition LBRACKET : Char := 91.    (* "[" *)

(** An ASCII literal as a [Text]. *)
Fixpoint txt (s : string) : Text :=
  match s with
  | EmptyString => []
  | String a s' => N_of_ascii a :: txt s'
  end.

(** [s.endswith("\n")] *)
Fixpoint endswith_nl (s : Text) : bool :=
  match s with
  | [] => false
  | [c] => c =? NL
  | _ :: s' => endswith_nl s'
  end.

(** [s.split("\n")]: the pieces between the separators; never empty. *)
Fixpoint split_nl (s : Text) : list Text :=
  match s with
  | [] => [[]]
  | c :: s' =>
      if c =? NL then [] :: split_nl s'
      else match split_nl s' with
           | [] => [[c]]
           | w :: ws => (c :: w) :: ws
           end
  end.

(** ** io.StringIO (newline="\n": no translation, lines end at '\n' only) *)

Module StringIO.

Record t : Type := mk { getvalue : Text; tell : nat }.

(** [io.StringIO()] *)
Definition new : t := mk [] 0.

(** [buf.seek(0)] *)
Definition seek0 (buf : t) : t := mk (getvalue buf) 0.

(** [buf.write(s)]: overwrites from the position on, extends the content
    as needed, pads with NUL when the position is beyond the end. *)
Definition write (s : Text) (buf : t) : t :=
  let v := getvalue buf in
  let p := tell buf in
  mk (take p v ++ replicate (p - length v)%nat 0 ++ s ++ drop (p + length s)%nat v)
     (p + length s)%nat.

(** The prefix of [s] up to and including the first '\n', or all of [s]. *)
Fixpoint upto_nl (s : Text) : Text :=
  match s with
  | [] => []
  | c :: s' => if c =? NL then [c] else c :: upto_nl s'
  end.

(** [buf.readline()]: the line read and the advanced stream. *)
Definition readline (buf : t) : Text * t :=
  let line := upto_nl (drop (tell buf) (getvalue buf)) in
  (line, mk (getvalue buf) (tell buf + length line)%nat).

End StringIO.

(** ** _strip_ansi *)

(** The pattern [\x1B\[[0-?]*[ -/]*[@-~]] is a sequence of items, each a
    single-character class, possibly starred. *)
Inductive Item : Type :=
| One (p : Char -> bool)      (* x  *)
| Many (p : Char -> bool).    (* x* *)

Definition lit (a : Char) : Char -> bool := fun c => c =? a.
Definition range (lo hi : Char) : Char -> bool := fun c => (lo <=? c) && (c <=? hi).

Definition is_param : Char -> bool := range 48 63.     (* [0-?] *)
Definition is_inter : Char -> bool := range 32 47.     (* [ -/] *)
Definition is_final : Char -> bool := range 64 126.    (* [@-~] *)

Definition ansi_pattern : list Item :=
  [One (lit ESC); One (lit LBRACKET); Many is_param; Many is_inter; One is_final].

(** Anchored match of [re]: a starred item takes as many characters as it
    can and gives them back one at a time when the rest of the pattern
    fails. Returns what follows the match. *)
Fixpoint match_items (items : list Item) : Text -> option Text :=
  match items with
  | [] => fun s => Some s
  | One p :: items' => fun s =>
      match s with
      | c :: s' => if p c then match_items items' s' else None
      | [] => None
      end
  | Many p :: items' =>
      fix many (s : Text) : option Text :=
        match s with
        | c :: s' =>
            if p c then
              match many s' with
              | Some r => Some r
              | None => match_items items' s
              end
            else match_items items' s
        | [] => match_items items' []
        end
  end.

(** [re.sub(pattern, "", s)] for a pattern that matches no empty string:
    leftmost matches are dropped, scanning resumes after each match. Every
    match consumes a character, so [length s] rounds always suffice
    ([sub_empty_unfold]). *)
Fixpoint sub_empty (fuel : nat) (pattern : list Item) (s : Text) : Text :=
  match fuel with
  | O => s
  | S fuel' =>
      match s with
      | [] => []
      | c :: s' =>
          match match_items pattern s with
          | Some rest => sub_empty fuel' pattern rest
          | None => c :: sub_empty fuel' pattern s'
          end
      end
  end.

Definition _strip_ansi (text : Text) : Text :=
  let stripped_text := sub_empty (length text) ansi_pattern text in
  stripped_text.

(** ** Exceptions *)

Inductive Exn : Type :=
| Empty                         (* queue.Empty *)
| UnicodeDecodeError
| ConnectionResetError          (* an OSError of conn.recv *)
| IsADirectoryError             (* an OSError of os.unlink *)
| PermissionError               (* an OSError of os.unlink and bind *)
| FileNotFoundError
| AttributeError
| Exception (msg : string).

Inductive Result (A : Type) : Type :=
| Return (a : A)
| Raise (e : Exn).
Arguments Return {A} a.
Arguments Raise {A} e.

(** ** bytes.decode("utf-8"), errors="strict" *)

Definition is_cont : N -> bool := range 128 191.

Definition decoded (c : Char) (rest : Result Text) : Result Text :=
  match rest with
  | Return s => Return (c :: s)
  | Raise e => Raise e
  end.

Fixpoint decode_utf8 (data : list byte) : Result Text :=
  match data with
  | [] => Return []
  | b0 :: r0 =>
      let c0 := Byte.to_N b0 in
      if c0 <? 128 then decoded c0 (decode_utf8 r0)
      else if range 194 223 c0 then
        match r0 with
        | b1 :: r1 =>
            let c1 := Byte.to_N b1 in
            if is_cont c1
            then decoded (N.lor (N.shiftl (N.land c0 31) 6) (N.land c1 63))
                         (decode_utf8 r1)
            else Raise UnicodeDecodeError
        | _ => Raise UnicodeDecodeError
        end
      else if range 224 239 c0 then
        match r0 with
        | b1 :: b2 :: r2 =>
            let c1 := Byte.to_N b1 in
            let c2 := Byte.to_N b2 in
            if range (if c0 =? 224 then 160 else 128)
                     (if c0 =? 237 then 159 else 191) c1 && is_cont c2
            then decoded (N.lor (N.shiftl (N.land c0 15) 12)
                           (N.lor (N.shiftl (N.land c1 63) 6) (N.land c2 63)))
                         (decode_utf8 r2)
            else Raise UnicodeDecodeError
        | _ => Raise UnicodeDecodeError
        end
      else if range 240 244 c0 then
        match r0 with
        | b1 :: b2 :: b3 :: r3 =>
            let c1 := Byte.to_N b1 in
            let c2 := Byte.to_N b2 in
            let c3 := Byte.to_N b3 in
            if range (if c0 =? 240 then 144 else 128)
                     (if c0 =? 244 then 143 else 191) c1
               && is_cont c2 && is_cont c3
            then decoded (N.lor (N.shiftl (N.land c0 7) 18)
                           (N.lor (N.shiftl (N.land c1 63) 12)
                             (N.lor (N.shiftl (N.land c2 63) 6) (N.land c3 63))))
                         (decode_utf8 r3)
            else Raise UnicodeDecodeError
        | _ => Raise UnicodeDecodeError
        end
      else Raise UnicodeDecodeError
  end.

(** [s.encode()] for an ASCII literal. *)
Fixpoint ascii_bytes (s : string) : list byte :=
  match s with
  | EmptyString => []
  | String a s' => byte_of_ascii a :: ascii_bytes s'
  end.

(** ** multiprocessing.Queue *)

Module Queue.

(** The lines held, oldest first. *)
Definition t : Type := list Text.

(** [multiprocessing.Queue()]: no size bound. *)
Definition new : t := [].

(** [q.put_nowait(line)]: the queue is unbounded, so [Full] is never raised. *)
Definition put_nowait (line : Text) (q : t) : t := q ++ [line].

(** [q.get_nowait()] *)
Definition get_nowait (q : t) : Result Text * t :=
  match q with
  | [] => (Raise Empty, q)
  | line :: q' => (Return line, q')
  end.

End Queue.

(** ** _SocketListener *)

(** What one [conn.recv(4096)] gives the listener. *)
Inductive Recv : Type :=
| Received (data_received : list byte)   (* empty once the peer has disconnected *)
| RecvRaises (e : Exn).

Module _SocketListener.

(** [shared_queue] and [socket] are references: the queue and the socket
    live in the stores of the [World] below. *)
Record t : Type := mk {
  shared_queue : nat;
  socket : nat;
  buffer : StringIO.t;
  strip_ansi : bool
}.

Definition __init__ (shared_queue socket : nat) (strip_ansi : bool) : t :=
  mk shared_queue socket StringIO.new strip_ansi.

Definition with_buffer (buffer : StringIO.t) (self : t) : t :=
  mk (shared_queue self) (socket self) buffer (strip_ansi self).

(** The [while current_line.endswith("\n")] loop of [_parse_buffer]; [q]
    is the content of the shared queue. [None]: out of fuel. *)
Fixpoint parse_loop (fuel : nat) (strip_ansi : bool) (q : Queue.t)
    (buffer : StringIO.t) (current_line : Text)
  : option (Queue.t * StringIO.t * Text) :=
  if endswith_nl current_line then
    match fuel with
    | O => None
    | S fuel' =>
        let q :=
          if negb strip_ansi
          then Queue.put_nowait (removelast current_line) q
          else Queue.put_nowait (_strip_ansi (removelast current_line)) q in
        let '(current_line, buffer) := StringIO.readline buffer in
        parse_loop fuel' strip_ansi q buffer current_line
    end
  else Some (q, buffer, current_line).

(** Every pass of the loop has read a line of at least one character, so
    the length of the content bounds the number of passes. *)
Definition _parse_buffer (self : t) (q : Queue.t) : option (t * Queue.t) :=
  let buffer := StringIO.seek0 (buffer self) in
  let '(current_line, buffer) := StringIO.readline buffer in
  '(q, _, current_line) ←
    parse_loop (length (StringIO.getvalue buffer)) (strip_ansi self) q
               buffer current_line;
  let buffer := StringIO.new in
  let buffer := StringIO.write current_line buffer in
  Some (with_buffer buffer self, q).

(** What [__call__] does with a decoded chunk:
    [self.buffer.write(text_received); self._parse_buffer()]. *)
Definition feed (text_received : Text) (self : t) (q : Queue.t)
  : option (t * Queue.t) :=
  let self := with_buffer (StringIO.write text_received (buffer self)) self in
  _parse_buffer self q.

(** Chunks fed one after the other. *)
Fixpoint feed_all (chunks : list Text) (self : t) (q : Queue.t)
  : option (t * Queue.t) :=
  match chunks with
  | [] => Some (self, q)
  | chunk :: chunks' =>
      '(self, q) ← feed chunk self q;
      feed_all chunks' self q
  end.

(** One pass through the body of [while True] in [__call__]. *)
Inductive Step : Type :=
| Next (self : t) (q : Queue.t)   (* back to [conn.recv] *)
| Stop (e : Exn).                 (* the exception leaves [__call__] *)

Definition loop_body (r : Recv) (self : t) (q : Queue.t) : option Step :=
  match r with
  | RecvRaises e => Some (Stop e)
  | Received data_received =>
      match decode_utf8 data_received with
      | Raise e => Some (Stop e)
      | Return text_received =>
          '(self, q) ← feed text_received self q;
          Some (Next self q)
      end
  end.

(** Where [__call__] is once the environment has nothing more to offer. *)
Inductive Run : Type :=
| InAccept (self : t) (q : Queue.t)          (* blocked in [socket.accept] *)
| InRecv (self : t) (q : Queue.t)            (* blocked in [conn.recv] *)
| Exited (e : Exn) (self : t) (q : Queue.t). (* the process has ended *)

Fixpoint recv_loop (conn : list Recv) (self : t) (q : Queue.t) : option Run :=
  match conn with
  | [] => Some (InRecv self q)
  | r :: conn' =>
      step ← loop_body r self q;
      match step with
      | Next self q => recv_loop conn' self q
      | Stop e => Some (Exited e self q)
      end
  end.

(** [peer]: [None] when no peer ever connects, otherwise what the
    successive [recv] calls on the accepted connection give. The mark
    that [listen(1)] leaves on the socket is set in the world when the
    process starts ([process_start] below). *)
Definition __call__ (peer : option (list Recv)) (self : t) (q : Queue.t)
  : option Run :=
  match peer with
  | None => Some (InAccept self q)
  | Some conn => recv_loop conn self q
  end.

End _SocketListener.

(** ** The listener process and the polling caller, interleaved *)

(** Operations on the shared queue, in the order the queue serialises them. *)
Inductive QueueOp : Type :=
| Put (line : Text)    (* the listener's [put_nowait] *)
| Get.                 (* the caller's [get_nowait] *)

(** The lines the [Get]s returned (a [Get] on an empty queue raises and
    returns none) and the queue left. *)
Fixpoint queue_run (ops : list QueueOp) (q : Queue.t) : list Text * Queue.t :=
  match ops with
  | [] => ([], q)
  | Put line :: ops' => queue_run ops' (Queue.put_nowait line q)
  | Get :: ops' =>
      match Queue.get_nowait q with
      | (Return line, q') =>
          let '(got, q'') := queue_run ops' q' in (line :: got, q'')
      | (Raise _, q') => queue_run ops' q'
      end
  end.

Definition puts (ops : list QueueOp) : list Text :=
  omap (fun op => match op with Put line => Some line | Get => None end) ops.

(** What happens to a running system: the connection delivers something to
    a pending [recv], or the caller polls. *)
Inductive Event : Type :=
| Arrival (r : Recv)
| Poll.

Definition with_queue (q : Queue.t) (st : _SocketListener.Run) : _SocketListener.Run :=
  match st with
  | _SocketListener.InAccept self _ => _SocketListener.InAccept self q
  | _SocketListener.InRecv self _ => _SocketListener.InRecv self q
  | _SocketListener.Exited e self _ => _SocketListener.Exited e self q
  end.

Definition queue_of (st : _SocketListener.Run) : Queue.t :=
  match st with
  | _SocketListener.InAccept _ q
  | _SocketListener.InRecv _ q
  | _SocketListener.Exited _ _ q => q
  end.

(** The results of the polls, in order, and the final state. An arrival
    finds a reader only while the listener is in [recv]. *)
Fixpoint interleave (events : list Event) (st : _SocketListener.Run)
  : option (list (Result Text) * _SocketListener.Run) :=
  match events with
  | [] => Some ([], st)
  | Poll :: events' =>
      let '(res, q) := Queue.get_nowait (queue_of st) in
      '(polls, st') ← interleave events' (with_queue q st);
      Some (res :: polls, st')
  | Arrival r :: events' =>
      match st with
      | _SocketListener.InRecv self q =>
          step ← _SocketListener.loop_body r self q;
          interleave events'
            match step with
            | _SocketListener.Next self q => _SocketListener.InRecv self q
            | _SocketListener.Stop e => _SocketListener.Exited e self q
            end
      | _ => interleave events' st
      end
  end.

(** The lines among the poll results. *)
Definition returned (polls : list (Result Text)) : list Text :=
  omap (fun res => match res with Return line => Some line | Raise _ => None end) polls.

(** The text the listener decoded: the chunks up to the first receive error
    or decode failure. *)
Fixpoint decoded_text (events : list Event) : Text :=
  match events with
  | [] => []
  | Poll :: events' => decoded_text events'
  | Arrival (RecvRaises _) :: _ => []
  | Arrival (Received data) :: events' =>
      match decode_utf8 data with
      | Return s => s ++ decoded_text events'
      | Raise _ => []
      end
  end.

(** ** The world outside: files, sockets, queues, processes *)

Inductive FileKind : Type := RegularFile | Directory | SocketFile.

Record Socket : Type := mkSocket {
  bound : option string;
  listening : bool;
  closed : bool
}.

Inductive Phase : Type :=
| Accepting               (* blocked in [socket.accept] *)
| Receiving               (* blocked in [conn.recv] *)
| Ended (e : Exn).        (* an exception left [__call__] *)

Record Process : Type := mkProcess {
  target : _SocketListener.t;
  phase : Phase;
  daemon : bool
}.

Record World : Type := mkWorld {
  fs : gmap string FileKind;      (* what exists at each path *)
  denied : gset string;           (* paths whose directory entry may not change *)
  sockets : list Socket;          (* socket objects, by reference *)
  queues : list Queue.t;          (* multiprocessing queues, by reference *)
  processes : list Process;
  stdout : list string;
  stderr : list Exn               (* exceptions the interpreter ignored *)
}.

Definition with_fs (f : gmap string FileKind) (w : World) : World :=
  mkWorld f (denied w) (sockets w) (queues w) (processes w) (stdout w) (stderr w).
Definition with_sockets (s : list Socket) (w : World) : World :=
  mkWorld (fs w) (denied w) s (queues w) (processes w) (stdout w) (stderr w).
Definition with_queues (q : list Queue.t) (w : World) : World :=
  mkWorld (fs w) (denied w) (sockets w) q (processes w) (stdout w) (stderr w).
Definition with_processes (p : list Process) (w : World) : World :=
  mkWorld (fs w) (denied w) (sockets w) (queues w) p (stdout w) (stderr w).
Definition with_stdout (o : list string) (w : World) : World :=
  mkWorld (fs w) (denied w) (sockets w) (queues w) (processes w) o (stderr w).
Definition with_stderr (e : list Exn) (w : World) : World :=
  mkWorld (fs w) (denied w) (sockets w) (queues w) (processes w) (stdout w) e.

(** [Path.exists()], [Path.is_socket()] *)
Definition path_exists (p : string) (w : World) : bool :=
  bool_decide (is_Some (fs w !! p)).
Definition path_is_socket (p : string) (w : World) : bool :=
  match fs w !! p with Some SocketFile => true | _ => false end.

(** [os.unlink(p)] *)
Definition os_unlink (p : string) (w : World) : Result unit * World :=
  match fs w !! p with
  | None => (Raise FileNotFoundError, w)
  | Some kind =>
      if bool_decide (p ∈ denied w) then (Raise PermissionError, w)
      else match kind with
           | Directory => (Raise IsADirectoryError, w)
           | _ => (Return (), with_fs (delete p (fs w)) w)
           end
  end.

(** [Path.unlink(missing_ok)]: only [FileNotFoundError] is ever swallowed. *)
Definition path_unlink (p : string) (missing_ok : bool) (w : World)
  : Result unit * World :=
  match os_unlink p w with
  | (Raise FileNotFoundError, w') =>
      if missing_ok then (Return (), w') else (Raise FileNotFoundError, w')
  | res => res
  end.

(** [socket.socket(AF_UNIX, SOCK_STREAM)]: a new socket object. *)
Definition socket_socket (w : World) : nat * World :=
  (length (sockets w), with_sockets (sockets w ++ [mkSocket None false false]) w).

(** [sock.bind(p)]: creates the socket file; the path is taken to be free
    of anything but a denied directory entry. *)
Definition socket_bind (sock : nat) (p : string) (w : World) : Result unit * World :=
  if bool_decide (p ∈ denied w) then (Raise PermissionError, w)
  else (Return (),
        with_fs (<[p := SocketFile]> (fs w))
          (with_sockets
             (alter (fun s => mkSocket (Some p) (listening s) (closed s)) sock (sockets w)) w)).

(** [sock.close()] *)
Definition socket_close (sock : nat) (w : World) : World :=
  with_sockets (alter (fun s => mkSocket (bound s) (listening s) true) sock (sockets w)) w.

(** [sock.listen(1)] *)
Definition socket_listen (sock : nat) (w : World) : World :=
  with_sockets (alter (fun s => mkSocket (bound s) true (closed s)) sock (sockets w)) w.

(** [print(s)] *)
Definition print (s : string) (w : World) : World :=
  with_stdout (stdout w ++ [s]) w.

(** [multiprocessing.Queue()]: a new, empty queue. *)
Definition queue_new (w : World) : nat * World :=
  (length (queues w), with_queues (queues w ++ [Queue.new]) w).

(** [multiprocessing.Process(target=..., daemon=True).start()]: the child
    runs [__call__] up to its first blocking call: it has called
    [listen(1)] and waits in [accept]. *)
Definition process_start (target : _SocketListener.t) (w : World) : World :=
  socket_listen (_SocketListener.socket target)
    (with_processes (processes w ++ [mkProcess target Accepting true]) w).

(** A peer connects: [accept] returns in process [pid]. *)
Definition peer_connects (pid : nat) (w : World) : option World :=
  proc ← processes w !! pid;
  match phase proc with
  | Accepting =>
      Some (with_processes
              (<[pid := mkProcess (target proc) Receiving (daemon proc)]> (processes w)) w)
  | _ => None
  end.

(** [conn.recv] returns or raises in process [pid], which then runs one
    pass of its loop. *)
Definition peer_delivers (pid : nat) (r : Recv) (w : World) : option World :=
  proc ← processes w !! pid;
  match phase proc with
  | Receiving =>
      let self := target proc in
      q ← queues w !! _SocketListener.shared_queue self;
      step ← _SocketListener.loop_body r self q;
      Some match step with
           | _SocketListener.Next self' q' =>
               with_queues (<[_SocketListener.shared_queue self := q']> (queues w))
                 (with_processes
                    (<[pid := mkProcess self' Receiving (daemon proc)]> (processes w)) w)
           | _SocketListener.Stop e =>
               with_processes
                 (<[pid := mkProcess self (Ended e) (daemon proc)]> (processes w)) w
           end
  | _ => None
  end.

(** ** UnixSocketQueue *)

Module UnixSocketQueue.

(** [socket_obj] and [data] are unset until [__init__] assigns them. *)
Record t : Type := mk {
  strip_ansi : bool;
  socket_filepath_obj : string;
  socket_obj : option nat;
  data : option nat
}.

Section WithResolve.

(** [Path(p).resolve()], which the program leaves to [pathlib]. *)
Context (resolve : string -> string).

(** The instance as far as it got, and whether [__init__] raised. *)
Definition __init__ (socket_filepath : string) (strip_ansi : bool) (w : World)
  : Result unit * t * World :=
  let socket_filepath_obj := resolve socket_filepath in
  let self := mk strip_ansi socket_filepath_obj None None in
  if path_exists socket_filepath_obj w then
    (Raise (Exception ("CANNOT CREATE LISTENER AT " +:+ socket_filepath_obj
                         +:+ ", file exists!")),
     self, w)
  else
    let '(socket_obj, w) := socket_socket w in
    let self := mk strip_ansi socket_filepath_obj (Some socket_obj) None in
    match socket_bind socket_obj socket_filepath_obj w with
    | (Raise e, w) => (Raise e, self, w)
    | (Return _, w) =>
        let w :=
          if path_is_socket socket_filepath_obj w
          then print ("socket created: " +:+ socket_filepath_obj) w
          else w in
        let '(data, w) := queue_new w in
        let self := mk strip_ansi socket_filepath_obj (Some socket_obj) (Some data) in
        let socketListener := _SocketListener.__init__ data socket_obj strip_ansi in
        let w := process_start socketListener w in
        (Return (), self, w)
    end.

End WithResolve.

(** [None]: [self.data] refers to no queue of the world, which no
    instance built by [__init__] does. *)
Definition get_nowait (self : t) (w : World) : option (Result Text * World) :=
  match data self with
  | None => Some (Raise AttributeError, w)
  | Some data =>
      q ← queues w !! data;
      Some match Queue.get_nowait q with
           | (Raise e, _) => (Raise e, w)
           | (Return line, q') => (Return line, with_queues (<[data := q']> (queues w)) w)
           end
  end.

Definition __del__ (self : t) (w : World) : Result unit * World :=
  match socket_obj self with
  | None => (Raise AttributeError, w)
  | Some socket_obj =>
      let w := socket_close socket_obj w in
      path_unlink (socket_filepath_obj self) true w
  end.

(** Disposal: the interpreter calls [__del__] when it reclaims the
    instance; what [__del__] raises there is not propagated, it is handed
    to [sys.unraisablehook], which writes it to stderr. *)
Definition dispose (self : t) (w : World) : World :=
  match __del__ self w with
  | (Return _, w') => w'
  | (Raise e, w') => with_stderr (stderr w' ++ [e]) w'
  end.

End UnixSocketQueue.

(** The world of a fresh machine with nothing at any path. *)
Definition empty_world : World := mkWorld ∅ ∅ [] [] [] [] [].

(** ** Vocabulary of the statements *)

(** The line as it is put on the queue. *)
Definition emitted_as (strip_ansi : bool) (line : Text) : Text :=
  if strip_ansi then _strip_ansi line else line.

(** The buffer between two reads: no newline in it, position at its end. *)
Definition settled (self : _SocketListener.t) : Prop :=
  (NL ∉ StringIO.getvalue (_SocketListener.buffer self))
  ∧ (StringIO.tell (_SocketListener.buffer self)
     = length (StringIO.getvalue (_SocketListener.buffer self))).

(** The complete lines of a text and what follows its last newline:
    [s.split("\n")[:-1]] and [s.split("\n")[-1]]. *)
Definition complete_lines (s : Text) : list Text := removelast (split_nl s).
Definition remainder (s : Text) : Text := List.last (split_nl s) [].

(** The receives that raise in the read loop: a receive error, or bytes
    that are not UTF-8. *)
Definition raises_in_loop (r : Recv) : bool :=
  match r with
  | RecvRaises _ => true
  | Received data_received =>
      match decode_utf8 data_received with
      | Raise _ => true
      | Return _ => false
      end
  end.

(** Whether [os.unlink] can take away what is at the path. *)
Definition removable (p : string) (w : World) : bool :=
  match fs w !! p with
  | Some kind =>
      negb (bool_decide (p ∈ denied w))
      && match kind with Directory => false | _ => true end
  | None => false
  end.

(** The bytes of the single write of the end-to-end scenario: ESC "[31m"
    "hello" ESC "[0m" newline "world" newline. *)
Definition scenario_chunk : list byte :=
  [x1b] ++ ascii_bytes "[31mhello" ++ [x1b] ++ ascii_bytes "[0m" ++ [x0a]
  ++ ascii_bytes "world" ++ [x0a].

(** What the pattern denotes, whatever the order in which a matcher tries
    the alternatives: [Matches items s rest] when [s] is a string of the
    language of [items] followed by [rest]. *)
Inductive Matches : list Item -> list N -> list N -> Prop :=
| Matches_nil s :
    Matches [] s s
| Matches_one p items c s rest :
    p c = true -> Matches items s rest -> Matches (One p :: items) (c :: s) rest
| Matches_many_stop p items s rest :
    Matches items s rest -> Matches (Many p :: items) s rest
| Matches_many_more p items c s rest :
    p c = true -> Matches (Many p :: items) s rest ->
    Matches (Many p :: items) (c :: s) rest.

(** [s] without its longest prefix of characters of the class [p]. *)
Fixpoint skip (p : N -> bool) (s : list N) : list N :=
  match s with
  | c :: s' => if p c then skip p s' else s
  | [] => []
  end.

(** Every ESC of the text starts a complete escape sequence. *)
Fixpoint escapes_complete (s : Text) : bool :=
  match s with
  | [] => true
  | c :: s' =>
      (if c =? ESC then bool_decide (is_Some (match_items ansi_pattern s)) else true)
      && escapes_complete s'
  end.

(** [s.count("\n")] *)
Fixpoint count_nl (s : Text) : nat :=
  match s with
  | [] => 0
  | c :: s' => if c =? NL then S (count_nl s') else count_nl s'
  end.

(** A chunk end inside a multi-byte character: the bytes after the last
    whole character are one, two or three, and start with the lead byte of
    a longer sequence (or with a byte that cannot start one). *)
Definition cut_character (tail : list byte) : bool :=
  match tail with
  | [b0] => 128 <=? Byte.to_N b0
  | [b0; _] => 224 <=? Byte.to_N b0
  | [b0; _; _] => 240 <=? Byte.to_N b0
  | _ => false
  end.

(** [s] followed by the text [r] decodes to, if it does. *)
Definition then_text (s : Text) (r : Result Text) : Result Text :=
  match r with
  | Return t => Return (s ++ t)
  | Raise e => Raise e
  end.

(** The peer's writes arrive one after the other at process [pid]. *)
Fixpoint deliver_all (pid : nat) (datas : list (list byte)) (w : World)
  : option World :=
  match datas with
  | [] => Some w
  | data :: datas' =>
      w' ← peer_delivers pid (Received data) w;
      deliver_all pid datas' w'
  end.

(** The caller polls [n] times in a row; the results, in order. *)
Fixpoint poll_times (n : nat) (self : UnixSocketQueue.t) (w : World)
  : option (list (Result Text) * World) :=
  match n with
  | O => Some ([], w)
  | S n' =>
      '(res, w') ← UnixSocketQueue.get_nowait self w;
      '(polls, w'') ← poll_times n' self w';
      Some (res :: polls, w'')
  end.

(** * Properties *)

(** ** Lines of a text *)

Lemma text_lines_ind (P : list N -> Prop) :
  (forall s, NL ∉ s -> P s) ->
  (forall l s', NL ∉ l -> P s' -> P (l ++ NL :: s')) ->
  forall s, P s.
Proof.
  intros Hfree Hline s.
  cut (forall l, NL ∉ l -> P (l ++ s)).
  { intros H. apply (H []). apply not_elem_of_nil. }
  induction s as [|c s IH]; intros l Hl.
  - rewrite app_nil_r. by apply Hfree.
  - destruct (N.eqb_spec c NL) as [->|Hc].
    + apply Hline; [done|]. apply (IH []). apply not_elem_of_nil.
    + rewrite cons_middle, app_assoc. apply IH.
      rewrite not_elem_of_app, not_elem_of_cons. split_and!; [done|congruence|].
      apply not_elem_of_nil.
Qed.

Lemma split_nl_nonempty s : split_nl s <> [].
Proof.
  destruct s as [|c s]; simpl; [done|].
  destruct (c =? NL); [done|]. by destruct (split_nl s).
Qed.

Lemma split_nl_free s : NL ∉ s -> split_nl s = [s].
Proof.
  induction s as [|c s IH]; simpl; [done|].
  rewrite not_elem_of_cons. intros [Hc Hs].
  destruct (N.eqb_spec c NL); [congruence|]. by rewrite IH.
Qed.

Lemma split_nl_line l s : NL ∉ l -> split_nl (l ++ NL :: s) = l :: split_nl s.
Proof.
  induction l as [|c l IH]; simpl; [done|].
  rewrite not_elem_of_cons. intros [Hc Hl].
  destruct (N.eqb_spec c NL); [congruence|]. by rewrite IH.
Qed.

Lemma upto_nl_free s : NL ∉ s -> StringIO.upto_nl s = s.
Proof.
  induction s as [|c s IH]; simpl; [done|].
  rewrite not_elem_of_cons. intros [Hc Hs].
  destruct (N.eqb_spec c NL); [congruence|]. by rewrite IH.
Qed.

Lemma upto_nl_line l s : NL ∉ l -> StringIO.upto_nl (l ++ NL :: s) = l ++ [NL].
Proof.
  induction l as [|c l IH]; simpl; [done|].
  rewrite not_elem_of_cons. intros [Hc Hl].
  destruct (N.eqb_spec c NL); [congruence|]. by rewrite IH.
Qed.

Lemma endswith_nl_free s : NL ∉ s -> endswith_nl s = false.
Proof.
  induction s as [|c s IH]; [done|].
  rewrite not_elem_of_cons. intros [Hc Hs].
  destruct s as [|c' s]; simpl.
  - by apply N.eqb_neq.
  - by apply IH.
Qed.

Lemma endswith_nl_snoc l c : endswith_nl (l ++ [c]) = (c =? NL).
Proof.
  induction l as [|c' l IH]; [done|].
  simpl. destruct (l ++ [c]) eqn:E; [by destruct l|]. by rewrite <- IH.
Qed.

Lemma endswith_nl_true s : endswith_nl s = true -> NL ∈ s.
Proof.
  intros H. destruct (decide (NL ∈ s)) as [|Hn]; [done|].
  apply endswith_nl_free in Hn. congruence.
Qed.

Lemma split_nl_lines s : split_nl s = complete_lines s ++ [remainder s].
Proof. apply app_removelast_last, split_nl_nonempty. Qed.

Lemma complete_lines_free s : NL ∉ s -> complete_lines s = [].
Proof. intros H. unfold complete_lines. by rewrite split_nl_free. Qed.

Lemma remainder_free s : NL ∉ s -> remainder s = s.
Proof. intros H. unfold remainder. by rewrite split_nl_free. Qed.

Lemma complete_lines_line l s :
  NL ∉ l -> complete_lines (l ++ NL :: s) = l :: complete_lines s.
Proof.
  intros H. unfold complete_lines. rewrite split_nl_line by done.
  simpl. pose proof (split_nl_nonempty s). by destruct (split_nl s).
Qed.

Lemma remainder_line l s : NL ∉ l -> remainder (l ++ NL :: s) = remainder s.
Proof.
  intros H. unfold remainder. rewrite split_nl_line by done.
  simpl. pose proof (split_nl_nonempty s). by destruct (split_nl s).
Qed.

Lemma remainder_no_nl s : NL ∉ remainder s.
Proof.
  induction s as [s Hs | l s Hl IH] using text_lines_ind.
  - by rewrite remainder_free.
  - by rewrite remainder_line.
Qed.

Lemma complete_lines_no_nl s : Forall (fun l => NL ∉ l) (complete_lines s).
Proof.
  induction s as [s Hs | l s Hl IH] using text_lines_ind.
  - rewrite complete_lines_free by done. constructor.
  - rewrite complete_lines_line by done. by constructor.
Qed.

(** The text is its lines, each followed by a newline, and its remainder. *)
Lemma lines_join s :
  s = concat (map (fun l => l ++ [NL]) (complete_lines s)) ++ remainder s.
Proof.
  induction s as [s Hs | l s Hl IH] using text_lines_ind.
  - by rewrite complete_lines_free, remainder_free.
  - rewrite complete_lines_line, remainder_line by done. simpl.
    rewrite <- !app_assoc. simpl. by rewrite <- IH.
Qed.

Lemma complete_lines_app s t :
  complete_lines (s ++ t) = complete_lines s ++ complete_lines (remainder s ++ t).
Proof.
  induction s as [s Hs | l s Hl IH] using text_lines_ind.
  - by rewrite (complete_lines_free s), (remainder_free s).
  - rewrite <- app_assoc. simpl.
    rewrite !complete_lines_line, remainder_line by done. simpl. by rewrite IH.
Qed.

Lemma remainder_app s t : remainder (s ++ t) = remainder (remainder s ++ t).
Proof.
  induction s as [s Hs | l s Hl IH] using text_lines_ind.
  - by rewrite (remainder_free s).
  - rewrite <- app_assoc. simpl. by rewrite !remainder_line.
Qed.

(** ** The buffer and the parser *)

Lemma write_at_end s buf :
  StringIO.tell buf = length (StringIO.getvalue buf) ->
  StringIO.write s buf
  = StringIO.mk (StringIO.getvalue buf ++ s) (length (StringIO.getvalue buf ++ s)).
Proof.
  destruct buf as [v p]. simpl. intros ->. unfold StringIO.write. simpl.
  rewrite firstn_all, Nat.sub_diag, drop_ge by lia. simpl.
  by rewrite app_nil_r, length_app.
Qed.

Lemma write_new s : StringIO.write s StringIO.new = StringIO.mk s (length s).
Proof. rewrite write_at_end by done. done. Qed.

Lemma emitted_as_put strip_ansi line q :
  (if negb strip_ansi
   then Queue.put_nowait line q
   else Queue.put_nowait (_strip_ansi line) q)
  = q ++ [emitted_as strip_ansi line].
Proof. by destruct strip_ansi. Qed.

Lemma parse_loop_unfold fuel strip_ansi q buffer current_line :
  _SocketListener.parse_loop fuel strip_ansi q buffer current_line
  = if endswith_nl current_line then
      match fuel with
      | O => None
      | S fuel' =>
          _SocketListener.parse_loop fuel' strip_ansi
            (q ++ [emitted_as strip_ansi (removelast current_line)])
            (StringIO.readline buffer).2 (StringIO.readline buffer).1
      end
    else Some (q, buffer, current_line).
Proof. destruct fuel; simpl; [done|]. by rewrite emitted_as_put. Qed.

(** The loop, entered with the line just read at position [p] of the
    content [v], emits the complete lines of what lies from [p] on and is
    left with its remainder; the length of that text is fuel enough. *)
Lemma parse_loop_spec strip_ansi v r :
  forall fuel p q,
    drop p v = r -> (length r <= fuel)%nat ->
    exists buffer',
      _SocketListener.parse_loop fuel strip_ansi q
        (StringIO.mk v (p + length (StringIO.upto_nl r))) (StringIO.upto_nl r)
      = Some (q ++ map (emitted_as strip_ansi) (complete_lines r), buffer', remainder r).
Proof.
  induction r as [r Hr | l r Hl IH] using text_lines_ind; intros fuel p q Hp Hfuel.
  - rewrite parse_loop_unfold, upto_nl_free, endswith_nl_free by done.
    rewrite complete_lines_free, remainder_free, app_nil_r by done. eauto.
  - rewrite parse_loop_unfold, upto_nl_line, endswith_nl_snoc by done. simpl.
    destruct fuel as [|fuel]; [rewrite length_app in Hfuel; simpl in Hfuel; lia|].
    unfold StringIO.readline. simpl.
    assert (drop (p + length (l ++ [NL])) v = r) as Hdrop.
    { rewrite <- drop_drop, Hp.
      replace (l ++ NL :: r) with ((l ++ [NL]) ++ r) by (by rewrite <- app_assoc).
      by rewrite drop_app_length. }
    rewrite Hdrop, removelast_last.
    destruct (IH fuel (p + length (l ++ [NL]))%nat
                (q ++ [emitted_as strip_ansi l]) Hdrop) as [buffer' ->].
    { rewrite length_app in Hfuel. simpl in Hfuel. lia. }
    rewrite complete_lines_line, remainder_line by done. simpl.
    rewrite <- app_assoc. simpl. eauto.
Qed.

Lemma with_buffer_twice b b' self :
  _SocketListener.with_buffer b (_SocketListener.with_buffer b' self)
  = _SocketListener.with_buffer b self.
Proof. done. Qed.

(** [_parse_buffer] never runs out of fuel; it moves the complete lines of
    the buffer to the queue and keeps the remainder. *)
Lemma _parse_buffer_spec self q :
  _SocketListener._parse_buffer self q
  = Some (_SocketListener.with_buffer
            (StringIO.mk
               (remainder (StringIO.getvalue (_SocketListener.buffer self)))
               (length (remainder (StringIO.getvalue (_SocketListener.buffer self)))))
            self,
          q ++ map (emitted_as (_SocketListener.strip_ansi self))
                 (complete_lines (StringIO.getvalue (_SocketListener.buffer self)))).
Proof.
  unfold _SocketListener._parse_buffer, StringIO.readline, StringIO.seek0. simpl.
  destruct (parse_loop_spec (_SocketListener.strip_ansi self)
              (StringIO.getvalue (_SocketListener.buffer self))
              (StringIO.getvalue (_SocketListener.buffer self))
              (length (StringIO.getvalue (_SocketListener.buffer self))) 0 q)
    as [buffer' Hloop]; [done|done|].
  simpl in Hloop. rewrite drop_0, Hloop. simpl. by rewrite write_new.
Qed.

Lemma feed_spec text_received self q :
  StringIO.tell (_SocketListener.buffer self)
  = length (StringIO.getvalue (_SocketListener.buffer self)) ->
  _SocketListener.feed text_received self q
  = Some (_SocketListener.with_buffer
            (StringIO.mk
               (remainder (StringIO.getvalue (_SocketListener.buffer self) ++ text_received))
               (length (remainder (StringIO.getvalue (_SocketListener.buffer self)
                                     ++ text_received))))
            self,
          q ++ map (emitted_as (_SocketListener.strip_ansi self))
                 (complete_lines (StringIO.getvalue (_SocketListener.buffer self)
                                    ++ text_received))).
Proof.
  intros Hend. unfold _SocketListener.feed.
  rewrite write_at_end by done. by rewrite _parse_buffer_spec.
Qed.

Lemma settled_with_remainder s self :
  settled (_SocketListener.with_buffer
             (StringIO.mk (remainder s) (length (remainder s))) self).
Proof. split; simpl; [apply remainder_no_nl|done]. Qed.

Lemma settled_init shared_queue socket strip_ansi :
  settled (_SocketListener.__init__ shared_queue socket strip_ansi).
Proof. split; simpl; [apply not_elem_of_nil|done]. Qed.

Lemma settled_with_buffer_id self :
  settled self ->
  _SocketListener.with_buffer
    (StringIO.mk
       (remainder (StringIO.getvalue (_SocketListener.buffer self)))
       (length (remainder (StringIO.getvalue (_SocketListener.buffer self)))))
    self
  = self.
Proof.
  destruct self as [sq so [v p] st]. intros [Hnl Hend]. simpl in *.
  rewrite remainder_free by done. unfold _SocketListener.with_buffer. simpl.
  by rewrite Hend.
Qed.

Lemma feed_all_spec chunks :
  forall self q,
    settled self ->
    _SocketListener.feed_all chunks self q
    = Some (_SocketListener.with_buffer
              (StringIO.mk
                 (remainder (StringIO.getvalue (_SocketListener.buffer self)
                               ++ concat chunks))
                 (length (remainder (StringIO.getvalue (_SocketListener.buffer self)
                                       ++ concat chunks))))
              self,
            q ++ map (emitted_as (_SocketListener.strip_ansi self))
                   (complete_lines (StringIO.getvalue (_SocketListener.buffer self)
                                      ++ concat chunks))).
Proof.
  induction chunks as [|chunk chunks IH]; intros self q Hself.
  - simpl. rewrite app_nil_r, settled_with_buffer_id by done.
    destruct Hself as [Hnl _]. by rewrite complete_lines_free, app_nil_r.
  - simpl. rewrite feed_spec by apply Hself. simpl.
    rewrite IH by apply settled_with_remainder. simpl.
    rewrite with_buffer_twice, app_assoc, <- remainder_app.
    rewrite (complete_lines_app (_ ++ chunk)), map_app, app_assoc. done.
Qed.

(** ** The escape filter *)

Lemma match_items_one p items s :
  match_items (One p :: items) s
  = match s with
    | c :: s' => if p c then match_items items s' else None
    | [] => None
    end.
Proof. done. Qed.

Lemma match_items_many p items s :
  match_items (Many p :: items) s
  = match s with
    | c :: s' =>
        if p c then
          match match_items (Many p :: items) s' with
          | Some r => Some r
          | None => match_items items s
          end
        else match_items items s
    | [] => match_items items []
    end.
Proof. by destruct s. Qed.

Lemma match_items_suffix items :
  forall s rest, match_items items s = Some rest -> exists pre, s = pre ++ rest.
Proof.
  induction items as [|[p|p] items IH]; intros s.
  - intros rest [= ->]. by exists [].
  - intros rest. rewrite match_items_one.
    destruct s as [|c s]; [done|]. destruct (p c); [|done].
    intros [pre ->]%IH. by exists (c :: pre).
  - induction s as [|c s IHs]; intros rest; rewrite match_items_many; [apply IH|].
    destruct (p c); [|apply IH].
    destruct (match_items (Many p :: items) s) as [r|] eqn:E; [|apply IH].
    intros [= ->]. destruct (IHs _ eq_refl) as [pre ->]. by exists (c :: pre).
Qed.

Lemma match_items_sound items :
  forall s rest, match_items items s = Some rest -> Matches items s rest.
Proof.
  induction items as [|[p|p] items IH]; intros s.
  - intros rest [= ->]. constructor.
  - intros rest. rewrite match_items_one.
    destruct s as [|c s]; [done|]. destruct (p c) eqn:Hc; [|done].
    intros H. by constructor; [|apply IH].
  - induction s as [|c s IHs]; intros rest; rewrite match_items_many.
    + intros H. by apply Matches_many_stop, IH.
    + destruct (p c) eqn:Hc; [|intros H; by apply Matches_many_stop, IH].
      destruct (match_items (Many p :: items) s) as [r|] eqn:E.
      * intros [= ->]. by apply Matches_many_more, IHs.
      * intros H. by apply Matches_many_stop, IH.
Qed.

(** The matcher gives up only when the string has no match at all. *)
Lemma match_items_complete items s rest :
  Matches items s rest -> is_Some (match_items items s).
Proof.
  induction 1 as [s|p items c s rest Hc _ IH|p items s rest _ IH
                 |p items c s rest Hc _ IH].
  - by eexists.
  - by rewrite match_items_one, Hc.
  - rewrite match_items_many. destruct s as [|c s]; [done|].
    destruct (p c); [|done]. by destruct (match_items (Many p :: items) s).
  - rewrite match_items_many, Hc. destruct IH as [r ->]. by eexists.
Qed.

Lemma range_disjoint lo hi lo' hi' c :
  hi < lo' -> range lo hi c = true -> range lo' hi' c = false.
Proof.
  unfold range. intros Hlt [H1 H2]%andb_prop.
  apply N.leb_le in H1, H2. apply andb_false_iff. left. apply N.leb_gt. lia.
Qed.

Lemma Matches_many_skip p items s rest :
  Matches (Many p :: items) s rest ->
  (forall s' rest', Matches items s' rest' ->
                    match s' with c :: _ => p c = false | [] => True end) ->
  Matches items (skip p s) rest.
Proof.
  intros H Hhead. remember (Many p :: items) as pat eqn:Hpat.
  induction H as [s| |p' items' s rest H _|p' items' c s rest Hc _ IH];
    try discriminate; injection Hpat as -> ->.
  - specialize (Hhead _ _ H). destruct s as [|c s]; [done|]. simpl. by rewrite Hhead.
  - simpl. rewrite Hc. by apply IH.
Qed.

(** The classes of the pattern are disjoint, so a string has at most one
    match: what the matcher returns does not depend on its being greedy
    or on the order of its backtracking. *)
Lemma ansi_match_unique s rest :
  Matches ansi_pattern s rest ->
  exists c, skip is_inter (skip is_param (drop 2 s)) = c :: rest.
Proof.
  unfold ansi_pattern. intros H.
  inversion H as [|? ? c0 s0 ? _ H0| |]; subst; clear H.
  inversion H0 as [|? ? c1 s1 ? _ H1| |]; subst; clear H0.
  simpl. apply Matches_many_skip in H1.
  - apply Matches_many_skip in H1.
    + inversion H1 as [|? ? c s2 ? _ H2| |]; subst. inversion H2; subst. eauto.
    + intros s' rest' H'. inversion H' as [|? ? c s2 ? Hc _| |]; subst.
      unfold is_final, is_inter in *.
      destruct (range 32 47 c) eqn:E; [|done].
      by rewrite (range_disjoint 32 47 64 126 c) in Hc.
  - intros s' rest' H'. destruct s' as [|c s']; [done|].
    unfold is_param. destruct (range 48 63 c) eqn:E; [|done]. exfalso.
    remember [Many is_inter; One is_final] as pat eqn:Hpat.
    remember (c :: s') as cs eqn:Hcs.
    destruct H' as [|? ? ? ? ? ? ?|p items s rest' H'|p items c' s rest' Hc' H'];
      try discriminate; injection Hpat as -> ->.
    + subst s. inversion H' as [|? ? c'' ? ? Hc'' _| |]; subst.
      unfold is_final in Hc''.
      by rewrite (range_disjoint 48 63 64 126 c) in Hc''.
    + injection Hcs as -> ->. unfold is_inter in Hc'.
      pose proof (range_disjoint 32 47 48 63 c) as Hd.
      destruct (range 32 47 c); [|done]. rewrite Hd in E; done.
Qed.

(** The matcher returns exactly the match of the pattern. *)
Lemma ansi_match_iff s rest :
  match_items ansi_pattern s = Some rest <-> Matches ansi_pattern s rest.
Proof.
  split; [apply match_items_sound|].
  intros H. destruct (match_items_complete _ _ _ H) as [rest' H'].
  rewrite H'. f_equal.
  apply match_items_sound, ansi_match_unique in H' as [c' H'].
  apply ansi_match_unique in H as [c H]. congruence.
Qed.

(** A match of the pattern starts with ESC and takes at least that
    character. *)
Lemma ansi_match_shorter s rest :
  match_items ansi_pattern s = Some rest -> (length rest < length s)%nat.
Proof.
  unfold ansi_pattern. rewrite match_items_one.
  destruct s as [|c s]; [done|]. destruct (lit ESC c); [|done].
  intros [pre ->]%match_items_suffix.
  rewrite length_cons, length_app. lia.
Qed.

Lemma ansi_match_esc c s rest :
  match_items ansi_pattern (c :: s) = Some rest -> c = ESC.
Proof.
  unfold ansi_pattern. rewrite match_items_one.
  unfold lit. by destruct (N.eqb_spec c ESC).
Qed.

Lemma sub_empty_fuel fuel :
  forall s fuel',
    (length s <= fuel)%nat -> (length s <= fuel')%nat ->
    sub_empty fuel ansi_pattern s = sub_empty fuel' ansi_pattern s.
Proof.
  induction fuel as [|fuel IH]; intros [|c s] fuel' Hfuel Hfuel';
    try (simpl in Hfuel; lia); try (by destruct fuel').
  destruct fuel' as [|fuel']; [simpl in Hfuel'; lia|].
  cbn [sub_empty]. simpl in Hfuel, Hfuel'.
  destruct (match_items ansi_pattern (c :: s)) as [rest|] eqn:E.
  - apply ansi_match_shorter in E. simpl in E. apply IH; lia.
  - f_equal. apply IH; lia.
Qed.

(** [_strip_ansi] never runs out of fuel: it satisfies the equations of the
    scan. *)
Lemma _strip_ansi_nil : _strip_ansi [] = [].
Proof. done. Qed.

Lemma _strip_ansi_cons c s :
  _strip_ansi (c :: s)
  = match match_items ansi_pattern (c :: s) with
    | Some rest => _strip_ansi rest
    | None => c :: _strip_ansi s
    end.
Proof.
  unfold _strip_ansi. cbn [length sub_empty].
  destruct (match_items ansi_pattern (c :: s)) as [rest|] eqn:E.
  - apply ansi_match_shorter in E. simpl in E. apply sub_empty_fuel; lia.
  - done.
Qed.

Lemma _strip_ansi_no_esc s : ESC ∉ s -> _strip_ansi s = s.
Proof.
  induction s as [|c s IH]; [done|].
  rewrite not_elem_of_cons. intros [Hc Hs].
  rewrite _strip_ansi_cons.
  destruct (match_items ansi_pattern (c :: s)) as [rest|] eqn:E.
  - apply ansi_match_esc in E. congruence.
  - by rewrite IH.
Qed.

Lemma escapes_complete_suffix pre s :
  escapes_complete (pre ++ s) = true -> escapes_complete s = true.
Proof.
  induction pre as [|c pre IH]; [done|].
  cbn [app escapes_complete]. intros [_ H]%andb_prop. by apply IH.
Qed.

Lemma _strip_ansi_removes_esc n :
  forall s, (length s <= n)%nat -> escapes_complete s = true -> ESC ∉ _strip_ansi s.
Proof.
  induction n as [|n IH]; intros [|c s] Hn Hs;
    try apply not_elem_of_nil; try (simpl in Hn; lia).
  rewrite _strip_ansi_cons.
  destruct (match_items ansi_pattern (c :: s)) as [rest|] eqn:E.
  - pose proof (ansi_match_shorter _ _ E) as Hlen.
    destruct (match_items_suffix _ _ _ E) as [pre Hpre].
    simpl in Hn, Hlen. apply IH; [lia|].
    rewrite Hpre in Hs. by apply escapes_complete_suffix in Hs.
  - cbn [escapes_complete] in Hs. apply andb_prop in Hs as [Hc Hs].
    rewrite E in Hc. rewrite not_elem_of_cons. split.
    + intros <-. rewrite N.eqb_refl in Hc. apply bool_decide_eq_true in Hc.
      by destruct Hc.
    + simpl in Hn. apply IH; [lia|done].
Qed.

(** The filter on a few strings, with what [re.sub] gives on them. *)
Example _strip_ansi_colour :
  _strip_ansi ([27; 91; 51; 49; 109] ++ txt "hello" ++ [27; 91; 48; 109]) = txt "hello".
Proof. vm_compute. reflexivity. Qed.

Example _strip_ansi_intermediates :
  _strip_ansi (txt "a" ++ [27] ++ txt "[1;2 /Kb") = txt "ab".
Proof. vm_compute. reflexivity. Qed.

Example _strip_ansi_incomplete :
  _strip_ansi ([27] ++ txt "[31") = [27] ++ txt "[31"
  /\ _strip_ansi ([27] ++ txt "[3 1m") = [27] ++ txt "[3 1m"
  /\ _strip_ansi ([27] ++ txt "[" ++ [27] ++ txt "[m") = [27] ++ txt "[".
Proof. vm_compute. split_and!; reflexivity. Qed.

(** The decoder on the euro sign, an emoji, e-acute and "A", and on
    ill-formed input: a surrogate, an overlong NUL, a code point beyond
    U+10FFFF, a cut-off sequence. *)
Example decode_utf8_well_formed :
  decode_utf8 [xe2; x82; xac; xf0; x9f; x98; x80; xc3; xa9; x41]
  = Return [8364; 128512; 233; 65].
Proof. vm_compute. reflexivity. Qed.

Example decode_utf8_ill_formed :
  decode_utf8 [xed; xa0; x80] = Raise UnicodeDecodeError
  /\ decode_utf8 [xc0; x80] = Raise UnicodeDecodeError
  /\ decode_utf8 [xf4; x90; x80; x80] = Raise UnicodeDecodeError
  /\ decode_utf8 [xe2; x82] = Raise UnicodeDecodeError.
Proof. vm_compute. split_and!; reflexivity. Qed.

(** ** Line reassembly *)

(** Partial lines are retained: "foo" alone gives no line; "foo" and then
    "bar" with its newline give the one line "foobar". *)
Example partial_line_retention :
  let self := _SocketListener.__init__ 0 0 false in
  _SocketListener.feed_all [txt "foo"] self Queue.new
  = Some (_SocketListener.with_buffer (StringIO.mk (txt "foo") 3) self, [])
  /\ _SocketListener.feed_all [txt "foo"; txt "bar" ++ [NL]] self Queue.new
     = Some (self, [txt "foobar"]).
Proof. vm_compute. split; reflexivity. Qed.

(** C1. For every sequence of chunks fed in receipt order to a new
    listener, splitting the concatenation of the chunks on '\n' gives the
    lines put on the queue, in order (each without its newline, and passed
    through the escape filter when [strip_ansi] is set), followed by one
    unterminated remainder, which is what the buffer retains and which is
    not on the queue. The outcome is that of feeding the whole text as a
    single chunk, so it does not depend on where the text was cut. *)
Theorem reassembly_matches_split
    (shared_queue socket : nat) (strip_ansi : bool) (chunks : list Text) :
  let self := _SocketListener.__init__ shared_queue socket strip_ansi in
  exists self' lines,
    _SocketListener.feed_all chunks self Queue.new
    = Some (self', if strip_ansi then map _strip_ansi lines else lines)
    /\ split_nl (concat chunks)
       = lines ++ [StringIO.getvalue (_SocketListener.buffer self')]
    /\ _SocketListener.feed_all chunks self Queue.new
       = _SocketListener.feed_all [concat chunks] self Queue.new.
Proof.
  intros self.
  pose proof (settled_init shared_queue socket strip_ansi) as Hself.
  eexists _, (complete_lines (concat chunks)). split_and!.
  - rewrite feed_all_spec by done. simpl. f_equal. f_equal.
    destruct strip_ansi; [done|]. unfold emitted_as. by rewrite map_id.
  - simpl. apply split_nl_lines.
  - rewrite !feed_all_spec by done. simpl. by rewrite app_nil_r.
Qed.

(** C8. After every feed, and after every run of [_parse_buffer] on any
    buffer, the new buffer holds no newline: the complete lines of the
    content have gone to the queue and only the remainder is kept. *)
Theorem buffer_never_holds_newline
    (self : _SocketListener.t) (q : Queue.t) (text_received : Text) :
  (exists self',
     _SocketListener._parse_buffer self q
     = Some (self',
             q ++ map (emitted_as (_SocketListener.strip_ansi self))
                    (complete_lines (StringIO.getvalue (_SocketListener.buffer self))))
     /\ StringIO.getvalue (_SocketListener.buffer self')
        = remainder (StringIO.getvalue (_SocketListener.buffer self))
     /\ NL ∉ StringIO.getvalue (_SocketListener.buffer self'))
  /\ (exists self' q',
        _SocketListener.feed text_received self q = Some (self', q')
        /\ NL ∉ StringIO.getvalue (_SocketListener.buffer self')).
Proof.
  split.
  - eexists. split_and!; [apply _parse_buffer_spec|done|apply remainder_no_nl].
  - unfold _SocketListener.feed. rewrite _parse_buffer_spec.
    eexists _, _. split; [done|]. apply remainder_no_nl.
Qed.

Lemma feed_empty self q :
  settled self -> _SocketListener.feed [] self q = Some (self, q).
Proof.
  intros Hself. rewrite feed_spec by apply Hself. rewrite app_nil_r.
  rewrite settled_with_buffer_id by done.
  destruct Hself as [Hnl _]. by rewrite complete_lines_free, app_nil_r.
Qed.

Lemma loop_body_empty_read self q :
  settled self ->
  _SocketListener.loop_body (Received []) self q = Some (_SocketListener.Next self q).
Proof.
  intros Hself. unfold _SocketListener.loop_body. simpl. by rewrite feed_empty.
Qed.

(** C10. Feeding the empty chunk between two reads changes nothing: no line
    is put on the queue and the buffer is as it was; so the pass of the
    read loop on an empty receive leaves listener and queue as they were
    and goes on to the next receive. *)
Theorem empty_chunk_is_noop (self : _SocketListener.t) (q : Queue.t) :
  settled self ->
  _SocketListener.feed [] self q = Some (self, q)
  /\ _SocketListener.loop_body (Received []) self q
     = Some (_SocketListener.Next self q).
Proof.
  intros Hself. split.
  - by apply feed_empty.
  - by apply loop_body_empty_read.
Qed.

Lemma empty_chunk_is_noop_witness :
  let self := _SocketListener.mk 0 0 (StringIO.mk (txt "foo") 3) true in
  settled self
  /\ _SocketListener.feed [] self [txt "queued"] = Some (self, [txt "queued"]).
Proof.
  assert (settled (_SocketListener.mk 0 0 (StringIO.mk (txt "foo") 3) true)) as H.
  { split; [|reflexivity]. apply (bool_decide_unpack _). vm_compute. exact I. }
  split; [exact H|]. apply (empty_chunk_is_noop _ _ H).
Defined.

(** ** The read loop *)

Lemma feed_total text_received self q :
  exists self' q', _SocketListener.feed text_received self q = Some (self', q').
Proof. unfold _SocketListener.feed. rewrite _parse_buffer_spec. eauto. Qed.

Lemma loop_body_total r self q :
  exists step, _SocketListener.loop_body r self q = Some step.
Proof.
  destruct r as [data|e]; simpl; [|eauto].
  destruct (decode_utf8 data) as [s|e]; [|eauto].
  destruct (feed_total s self q) as (self' & q' & ->). simpl. eauto.
Qed.

Lemma loop_body_raises r self q :
  raises_in_loop r = true ->
  exists e, _SocketListener.loop_body r self q = Some (_SocketListener.Stop e).
Proof.
  destruct r as [data|e]; simpl; [|eauto].
  destruct (decode_utf8 data) as [s|e]; [done|eauto].
Qed.

(** Whenever the loop is back at [conn.recv], the buffer is settled. *)
Lemma loop_body_settled r self q self' q' :
  _SocketListener.loop_body r self q = Some (_SocketListener.Next self' q') ->
  settled self'.
Proof.
  destruct r as [data|e]; simpl; [|done].
  destruct (decode_utf8 data) as [s|e]; [|done].
  unfold _SocketListener.feed. rewrite _parse_buffer_spec. simpl.
  intros [= <- _]. apply settled_with_remainder.
Qed.

Lemma recv_loop_settled conn :
  forall self q self' q',
    settled self ->
    _SocketListener.recv_loop conn self q = Some (_SocketListener.InRecv self' q') ->
    settled self'.
Proof.
  induction conn as [|r conn IH]; intros self q self' q' Hself; simpl.
  - by intros [= <- _].
  - destruct (_SocketListener.loop_body r self q) as [[self1 q1|e]|] eqn:E;
      simpl; [|done|done].
    apply IH. by eapply loop_body_settled.
Qed.

Lemma recv_loop_empty_reads n self q :
  settled self ->
  _SocketListener.recv_loop (replicate n (Received [])) self q
  = Some (_SocketListener.InRecv self q).
Proof.
  intros Hself. induction n as [|n IH]; [done|].
  cbn [replicate _SocketListener.recv_loop].
  rewrite loop_body_empty_read by done. simpl. apply IH.
Qed.

(** The read loop always has an outcome: it never runs out of fuel. *)
Lemma recv_loop_total conn :
  forall self q, exists run, _SocketListener.recv_loop conn self q = Some run.
Proof.
  induction conn as [|r conn IH]; intros self q; simpl; [eauto|].
  destruct (loop_body_total r self q) as [[self' q'|e] ->]; simpl; eauto.
Qed.

(** C6, as the code has it. A receive error or a decode failure ends the
    read loop at once (the exception leaves [__call__]; nothing retries or
    reconnects): whatever the connection would offer afterwards is never
    read, so no further line reaches the queue. An empty read does not
    end the loop: between two reads it leaves listener and queue as they
    are and the loop receives again, and as long as the reads stay empty
    the queue does not change. *)
Theorem read_loop_ends_on_raise
    (before : list Recv) (r : Recv) (self : _SocketListener.t) (q : Queue.t) :
  raises_in_loop r = true ->
  settled self ->
  (exists e self' q',
     forall after,
       _SocketListener.__call__ (Some (before ++ r :: after)) self q
       = Some (_SocketListener.Exited e self' q'))
  /\ _SocketListener.loop_body (Received []) self q
     = Some (_SocketListener.Next self q)
  /\ (forall n,
        _SocketListener.__call__ (Some (replicate n (Received []))) self q
        = Some (_SocketListener.InRecv self q)).
Proof.
  intros Hr Hself. split_and!.
  - clear Hself. simpl. revert self q.
    induction before as [|r0 before IH]; intros self q.
    + destruct (loop_body_raises r self q Hr) as [e He].
      exists e, self, q. intros after. simpl. by rewrite He.
    + destruct (loop_body_total r0 self q) as [[self1 q1|e] Hstep].
      * destruct (IH self1 q1) as (e & self' & q' & H).
        exists e, self', q'. intros after. simpl. rewrite Hstep. simpl. apply H.
      * exists e, self, q. intros after. simpl. by rewrite Hstep.
  - by apply loop_body_empty_read.
  - intros n. by apply recv_loop_empty_reads.
Qed.

Lemma read_loop_ends_on_raise_witness :
  let self := _SocketListener.__init__ 0 0 false in
  raises_in_loop (Received [xff]) = true
  /\ settled self
  /\ (exists e self' q',
        forall after,
          _SocketListener.__call__
            (Some ([Received (ascii_bytes "a"); Received [x0a]]
                     ++ Received [xff] :: after)) self Queue.new
          = Some (_SocketListener.Exited e self' q')).
Proof.
  intros self.
  assert (raises_in_loop (Received [xff]) = true) as H by reflexivity.
  assert (settled self) as Hself.
  { split; [|reflexivity]. apply (bool_decide_unpack _). vm_compute. exact I. }
  split_and!; [exact H|exact Hself|].
  apply (read_loop_ends_on_raise
           [Received (ascii_bytes "a"); Received [x0a]] (Received [xff])
           self Queue.new H Hself).
Defined.

(** C6, as stated, fails on an empty read: after the peer has disconnected
    and two receives in a row have come back empty, [__call__] has not
    ended; it is in [conn.recv] again. *)
Lemma read_loop_survives_empty_read :
  _SocketListener.__call__ (Some [Received []; Received []])
    (_SocketListener.__init__ 0 0 false) Queue.new
  = Some (_SocketListener.InRecv (_SocketListener.__init__ 0 0 false) Queue.new).
Proof. reflexivity. Qed.

(** ** The queue between the listener and the caller *)

Lemma queue_run_fifo ops :
  forall q, (queue_run ops q).1 ++ (queue_run ops q).2 = q ++ puts ops.
Proof.
  induction ops as [|[line|] ops IH]; intros q.
  - simpl. by rewrite app_nil_r.
  - cbn [queue_run]. rewrite IH. unfold Queue.put_nowait, puts.
    by rewrite <- app_assoc.
  - destruct q as [|line q]; cbn [queue_run Queue.get_nowait].
    + apply IH.
    + specialize (IH q). destruct (queue_run ops q) as [got q'].
      simpl in *. by rewrite IH.
Qed.

Lemma interleave_exited events :
  forall e self q,
  exists polls st',
    interleave events (_SocketListener.Exited e self q) = Some (polls, st')
    /\ returned polls ++ queue_of st' = q.
Proof.
  induction events as [|[r|] events IH]; intros e self q.
  - by exists [], (_SocketListener.Exited e self q).
  - apply IH.
  - cbn [interleave queue_of with_queue].
    destruct q as [|line q]; cbn [Queue.get_nowait].
    + destruct (IH e self []) as (polls & st' & -> & H). simpl. eauto.
    + destruct (IH e self q) as (polls & st' & -> & H). simpl.
      eexists _, _. split; [done|]. simpl. by rewrite H.
Qed.

Lemma interleave_receiving events :
  forall self q,
    settled self ->
    exists polls st',
      interleave events (_SocketListener.InRecv self q) = Some (polls, st')
      /\ returned polls ++ queue_of st'
         = q ++ map (emitted_as (_SocketListener.strip_ansi self))
                  (complete_lines (StringIO.getvalue (_SocketListener.buffer self)
                                     ++ decoded_text events)).
Proof.
  induction events as [|[r|] events IH]; intros self q Hself.
  - exists [], (_SocketListener.InRecv self q). split; [done|]. simpl.
    destruct Hself as [Hnl _]. rewrite app_nil_r, complete_lines_free by done.
    simpl. by rewrite app_nil_r.
  - assert (complete_lines (StringIO.getvalue (_SocketListener.buffer self)) = [])
      as Hnone by (apply complete_lines_free, Hself).
    cbn [interleave]. destruct r as [data|e]; cbn [_SocketListener.loop_body decoded_text].
    + destruct (decode_utf8 data) as [s|e].
      * rewrite feed_spec by apply Hself. simpl.
        edestruct IH as (polls & st' & -> & H); [apply settled_with_remainder|].
        eexists _, _. split; [done|]. rewrite H. simpl.
        rewrite (app_assoc _ s), (complete_lines_app (_ ++ s)), map_app.
        by rewrite app_assoc.
      * simpl. destruct (interleave_exited events e self q) as (polls & st' & -> & H).
        eexists _, _. split; [done|]. by rewrite H, app_nil_r, Hnone, app_nil_r.
    + simpl. destruct (interleave_exited events e self q) as (polls & st' & -> & H).
      eexists _, _. split; [done|]. by rewrite H, app_nil_r, Hnone, app_nil_r.
  - cbn [interleave queue_of with_queue decoded_text].
    destruct q as [|line q]; cbn [Queue.get_nowait].
    + destruct (IH self [] Hself) as (polls & st' & -> & H). simpl. eauto.
    + destruct (IH self q Hself) as (polls & st' & -> & H). simpl.
      eexists _, _. split; [done|]. simpl. by rewrite H.
Qed.

(** C2. However the listener's puts and the caller's gets are interleaved
    on the queue, the lines the gets return, followed by the lines still
    queued, are the lines put, in the order they were put. For the running
    system: however arrivals on the connection and polls of the caller are
    interleaved, the lines the polls return, followed by those still
    queued, are the complete lines of the received text in the order in
    which their newlines arrived. *)
Theorem polls_return_lines_in_push_order :
  (forall ops : list QueueOp,
     (queue_run ops Queue.new).1 ++ (queue_run ops Queue.new).2 = puts ops)
  /\ (forall (events : list Event) (shared_queue socket : nat) (strip_ansi : bool),
      exists polls st',
        interleave events
          (_SocketListener.InRecv
             (_SocketListener.__init__ shared_queue socket strip_ansi) Queue.new)
        = Some (polls, st')
        /\ returned polls ++ queue_of st'
           = map (emitted_as strip_ansi) (complete_lines (decoded_text events))).
Proof.
  split.
  - intros ops. apply queue_run_fifo.
  - intros events shared_queue socket strip_ansi.
    exact (interleave_receiving events
             (_SocketListener.__init__ shared_queue socket strip_ansi) Queue.new
             (settled_init shared_queue socket strip_ansi)).
Qed.



(** ** End to end *)

(** C4. A queue is created at a free path with [strip_ansi] set, a peer
    connects and sends

      ESC [31m hello ESC [0m newline world newline

    in one write: the first poll returns "hello", the second "world", and a
    third poll, before more data arrives, raises [Empty]. *)
Theorem end_to_end_scenario :
  exists self w1 w2 w3 w4 w5,
    UnixSocketQueue.__init__ (fun p => p) "/tmp/blah13" true empty_world
    = (Return (), self, w1)
    /\ peer_connects 0 w1 = Some w2
    /\ peer_delivers 0 (Received scenario_chunk) w2 = Some w3
    /\ UnixSocketQueue.get_nowait self w3 = Some (Return (txt "hello"), w4)
    /\ UnixSocketQueue.get_nowait self w4 = Some (Return (txt "world"), w5)
    /\ UnixSocketQueue.get_nowait self w5 = Some (Raise Empty, w5).
Proof.
  eexists _, _, _, _, _, _. split_and!; vm_compute; reflexivity.
Qed.

(** ** Escape filtering *)

(** C5, as stated, fails: removing a sequence can bring an ESC and a "[m"
    together. Stripping ESC ESC "[m" "[m" leaves ESC "[m", and stripping
    that leaves the empty string. *)
Lemma strip_twice_differs :
  _strip_ansi (_strip_ansi [27; 27; 91; 109; 91; 109]) = []
  /\ _strip_ansi [27; 27; 91; 109; 91; 109] = [27; 91; 109]
  /\ _strip_ansi (_strip_ansi [27; 27; 91; 109; 91; 109])
     <> _strip_ansi [27; 27; 91; 109; 91; 109].
Proof. vm_compute. split_and!; done. Qed.

(** C5, as the code has it. On a string in which every ESC starts a
    complete escape sequence the filter leaves no ESC behind, and
    stripping the stripped string changes nothing. *)
Theorem strip_idempotent_on_complete_escapes (x : Text) :
  escapes_complete x = true ->
  (ESC ∉ _strip_ansi x)
  /\ _strip_ansi (_strip_ansi x) = _strip_ansi x.
Proof.
  intros Hx.
  assert (ESC ∉ _strip_ansi x) as Hesc
    by (by apply (_strip_ansi_removes_esc (length x))).
  split; [done|]. by apply _strip_ansi_no_esc.
Qed.

Lemma strip_idempotent_on_complete_escapes_witness :
  let x := [27; 91; 51; 49; 109] ++ txt "hello" ++ [27; 91; 48; 109] in
  escapes_complete x = true
  /\ _strip_ansi x = txt "hello"
  /\ _strip_ansi (_strip_ansi x) = _strip_ansi x.
Proof.
  intros x.
  assert (escapes_complete x = true) as H by (vm_compute; reflexivity).
  split_and!; [exact H|vm_compute; reflexivity|].
  apply (strip_idempotent_on_complete_escapes x H).
Defined.

(** ** Construction and teardown *)

(** C7. When something already exists at the resolved path, [__init__]
    raises the "file exists" exception and leaves the world exactly as it
    was: no socket object, no socket file, no queue, no process, nothing
    printed. The instance it abandons has neither socket nor queue, and
    disposing of it touches nothing either: its [__del__] stops at the
    missing socket, which the interpreter notes on stderr. *)
Theorem init_refuses_existing_path
    (resolve : string -> string) (socket_filepath : string) (strip_ansi : bool)
    (w : World) :
  is_Some (fs w !! resolve socket_filepath) ->
  exists msg self,
    UnixSocketQueue.__init__ resolve socket_filepath strip_ansi w
    = (Raise (Exception msg), self, w)
    /\ UnixSocketQueue.socket_obj self = None
    /\ UnixSocketQueue.data self = None
    /\ UnixSocketQueue.dispose self w = with_stderr (stderr w ++ [AttributeError]) w.
Proof.
  intros Hexists. unfold UnixSocketQueue.__init__, path_exists.
  rewrite bool_decide_eq_true_2 by done. eexists _, _. split_and!; done.
Qed.

Lemma init_refuses_existing_path_witness :
  let w := mkWorld {["/tmp/blah13" := RegularFile]} ∅ [] [] [] [] [] in
  is_Some (fs w !! "/tmp/blah13")
  /\ exists msg self,
       UnixSocketQueue.__init__ (fun p => p) "/tmp/blah13" false w
       = (Raise (Exception msg), self, w)
       /\ UnixSocketQueue.socket_obj self = None
       /\ UnixSocketQueue.data self = None
       /\ UnixSocketQueue.dispose self w = with_stderr (stderr w ++ [AttributeError]) w.
Proof.
  intros w.
  assert (is_Some (fs w !! "/tmp/blah13")) as H by (vm_compute; eauto).
  split; [exact H|].
  apply (init_refuses_existing_path (fun p => p) "/tmp/blah13" false w H).
Defined.

(** C9. Disposing of a constructed instance closes its socket and removes
    what is at the socket path when that can be removed; no outcome of the
    removal reaches the caller. When nothing is at the path any more,
    [__del__] itself returns normally ([missing_ok]) and nothing is
    reported anywhere. When the removal fails for another reason, the file
    system is left as it is and [__del__] raises; the interpreter, which
    runs [__del__] on disposal, keeps the exception from the caller and
    notes it on stderr. Queues, processes and stdout are untouched. *)
Theorem teardown_is_best_effort
    (self : UnixSocketQueue.t) (w : World) (socket_obj : nat) :
  UnixSocketQueue.socket_obj self = Some socket_obj ->
  let p := UnixSocketQueue.socket_filepath_obj self in
  let w' := UnixSocketQueue.dispose self w in
  let closed := socket_close socket_obj w in
  sockets w' = alter (fun s => mkSocket (bound s) (listening s) true) socket_obj (sockets w)
  /\ fs w' = (if removable p w then delete p (fs w) else fs w)
  /\ match fs w !! p with
     | None =>
         UnixSocketQueue.__del__ self w = (Return (), closed) /\ w' = closed
     | Some _ =>
         if removable p w then
           UnixSocketQueue.__del__ self w
           = (Return (), with_fs (delete p (fs w)) closed)
           /\ w' = with_fs (delete p (fs w)) closed
         else
           exists e,
             UnixSocketQueue.__del__ self w = (Raise e, closed)
             /\ w' = with_stderr (stderr w ++ [e]) closed
     end
  /\ queues w' = queues w /\ processes w' = processes w /\ stdout w' = stdout w.
Proof.
  intros Hsock p w' closed. subst w' closed.
  unfold UnixSocketQueue.dispose, UnixSocketQueue.__del__. rewrite Hsock. fold p.
  unfold path_unlink, os_unlink, removable.
  change (fs (socket_close socket_obj w)) with (fs w).
  change (denied (socket_close socket_obj w)) with (denied w).
  destruct (fs w !! p) as [kind|] eqn:Hkind.
  - destruct (bool_decide (p ∈ denied w)); [|destruct kind]; simpl; naive_solver.
  - simpl. naive_solver.
Qed.

Lemma teardown_is_best_effort_witness :
  let self := UnixSocketQueue.mk true "/tmp/blah13" (Some 0%nat) (Some 0%nat) in
  let w :=
    mkWorld {["/tmp/blah13" := SocketFile]} ∅
      [mkSocket (Some "/tmp/blah13") true false] [Queue.new] [] [] [] in
  UnixSocketQueue.socket_obj self = Some 0%nat
  /\ sockets (UnixSocketQueue.dispose self w)
     = [mkSocket (Some "/tmp/blah13") true true]
  /\ fs (UnixSocketQueue.dispose self w) = ∅.
Proof.
  intros self w.
  destruct (teardown_is_best_effort self w 0%nat eq_refl) as (Hs & Hfs & _).
  split_and!; [reflexivity|rewrite Hs; reflexivity|rewrite Hfs; vm_compute; reflexivity].
Defined.

(** Where the suppression of C9 comes from: [__del__] itself raises when
    the socket path has become a directory; only disposal keeps that from
    the caller. *)
Example __del___raises_on_directory :
  let self := UnixSocketQueue.mk true "/tmp/blah13" (Some 0%nat) (Some 0%nat) in
  let w :=
    mkWorld {["/tmp/blah13" := Directory]} ∅
      [mkSocket (Some "/tmp/blah13") true false] [Queue.new] [] [] [] in
  (UnixSocketQueue.__del__ self w).1 = Raise IsADirectoryError
  /\ stderr (UnixSocketQueue.dispose self w) = [IsADirectoryError]
  /\ fs (UnixSocketQueue.dispose self w) = fs w.
Proof. vm_compute. split_and!; reflexivity. Qed.


(** * Further properties *)

(** ** What the escape filter removes and what it keeps *)

Lemma Matches_many_inv p items s rest :
  Matches (Many p :: items) s rest ->
  exists taken s',
    s = taken ++ s' /\ Forall (fun c => p c = true) taken /\ Matches items s' rest.
Proof.
  intros H. remember (Many p :: items) as pat eqn:Hpat.
  induction H as [s| |p' items' s rest H _|p' items' c s rest Hc _ IH];
    try discriminate; injection Hpat as -> ->.
  - by exists [], s.
  - destruct (IH eq_refl) as (taken & s' & -> & Htaken & H').
    exists (c :: taken), s'. split_and!; [done| |done]. by constructor.
Qed.

Lemma Matches_many_intro p items taken s' rest :
  Forall (fun c => p c = true) taken ->
  Matches items s' rest ->
  Matches (Many p :: items) (taken ++ s') rest.
Proof.
  intros Htaken H. induction Htaken as [|c taken Hc _ IH]; simpl.
  - by apply Matches_many_stop.
  - by apply Matches_many_more.
Qed.

(** The strings of the pattern, spelled out. *)
Lemma Matches_ansi_csi s rest :
  Matches ansi_pattern s rest
  <-> exists params inters final,
        s = ESC :: LBRACKET :: params ++ inters ++ final :: rest
        /\ Forall (fun c => is_param c = true) params
        /\ Forall (fun c => is_inter c = true) inters
        /\ is_final final = true.
Proof.
  unfold ansi_pattern. split.
  - intros H.
    inversion H as [|? ? c0 s0 ? Hc0 H0| |]; subst; clear H.
    inversion H0 as [|? ? c1 s1 ? Hc1 H1| |]; subst; clear H0.
    apply N.eqb_eq in Hc0, Hc1. subst c0 c1.
    apply Matches_many_inv in H1 as (params & s2 & -> & Hparams & H2).
    apply Matches_many_inv in H2 as (inters & s3 & -> & Hinters & H3).
    inversion H3 as [|? ? final s4 ? Hfinal H4| |]; subst. inversion H4; subst.
    by exists params, inters, final.
  - intros (params & inters & final & -> & Hparams & Hinters & Hfinal).
    apply Matches_one; [apply N.eqb_refl|].
    apply Matches_one; [apply N.eqb_refl|].
    apply Matches_many_intro; [done|]. apply Matches_many_intro; [done|].
    apply Matches_one; [done|]. constructor.
Qed.

Lemma _strip_ansi_sublist_upto n :
  forall s, (length s <= n)%nat -> _strip_ansi s `sublist_of` s.
Proof.
  induction n as [|n IH]; intros [|c s] Hn; try done; try (simpl in Hn; lia).
  rewrite _strip_ansi_cons.
  destruct (match_items ansi_pattern (c :: s)) as [rest|] eqn:E.
  - pose proof (ansi_match_shorter _ _ E) as Hlen.
    destruct (match_items_suffix _ _ _ E) as [pre Hpre].
    rewrite Hpre. apply sublist_inserts_l, IH. simpl in Hn, Hlen. lia.
  - apply sublist_skip, IH. simpl in Hn. lia.
Qed.

Lemma _strip_ansi_sublist s : _strip_ansi s `sublist_of` s.
Proof. by apply (_strip_ansi_sublist_upto (length s)). Qed.

(** X1. The filter only deletes: what it returns is the input with some
    characters left out, in the same order; so it is never longer than
    the input and holds no character the input did not hold. *)
Theorem _strip_ansi_only_deletes (text : Text) :
  _strip_ansi text `sublist_of` text
  /\ (length (_strip_ansi text) <= length text)%nat
  /\ (forall c, c ∈ _strip_ansi text -> c ∈ text).
Proof.
  pose proof (_strip_ansi_sublist text) as H. split_and!.
  - done.
  - by apply sublist_length.
  - intros c Hc. by eapply elem_of_sublist.
Qed.

(** X2. Text up to the first ESC is kept as it is: the filter of [a ++ b],
    where [a] holds no ESC, is [a] followed by the filter of [b]. In
    particular a text without ESC is returned unchanged. *)
Theorem _strip_ansi_keeps_plain_prefix (a b : Text) :
  ESC ∉ a ->
  _strip_ansi (a ++ b) = a ++ _strip_ansi b
  /\ _strip_ansi a = a.
Proof.
  intros Ha. split.
  - induction a as [|c a IH]; [done|].
    apply not_elem_of_cons in Ha as [Hc Ha].
    change ((c :: a) ++ b) with (c :: (a ++ b)). rewrite _strip_ansi_cons.
    destruct (match_items ansi_pattern (c :: a ++ b)) as [rest|] eqn:E.
    + apply ansi_match_esc in E. congruence.
    + simpl. by rewrite IH.
  - by apply _strip_ansi_no_esc.
Qed.

Lemma _strip_ansi_keeps_plain_prefix_witness :
  (ESC ∉ txt "plain ")
  /\ _strip_ansi (txt "plain " ++ [27; 91; 49; 109] ++ txt "bold")
     = txt "plain " ++ _strip_ansi ([27; 91; 49; 109] ++ txt "bold").
Proof.
  assert (ESC ∉ txt "plain ") as H.
  { apply (bool_decide_unpack _). vm_compute. exact I. }
  split; [exact H|].
  apply (_strip_ansi_keeps_plain_prefix (txt "plain ") _ H).
Defined.

(** X3. The anchored match of the pattern succeeds exactly on the texts
    that start with ESC, "[", any number of parameter characters (0x30 to
    0x3F), any number of intermediate characters (0x20 to 0x2F) and one
    final character (0x40 to 0x7E), and it returns what follows that
    final character. *)
Theorem ansi_pattern_matches_csi (s rest : Text) :
  match_items ansi_pattern s = Some rest
  <-> exists params inters final,
        s = ESC :: LBRACKET :: params ++ inters ++ final :: rest
        /\ Forall (fun c => is_param c = true) params
        /\ Forall (fun c => is_inter c = true) inters
        /\ is_final final = true.
Proof.
  rewrite <- Matches_ansi_csi. split.
  - apply match_items_sound.
  - intros H. destruct (match_items_complete _ _ _ H) as [rest' H'].
    rewrite H'. f_equal.
    apply match_items_sound, ansi_match_unique in H' as [c' H'].
    apply ansi_match_unique in H as [c H]. congruence.
Qed.

(** X4. An escape sequence at the head of a text is removed whatever
    follows it: the filter of the sequence followed by [rest] is the
    filter of [rest]. *)
Theorem _strip_ansi_drops_sequence (params inters : Text) (final : Char) (rest : Text) :
  Forall (fun c => is_param c = true) params ->
  Forall (fun c => is_inter c = true) inters ->
  is_final final = true ->
  _strip_ansi (ESC :: LBRACKET :: params ++ inters ++ final :: rest)
  = _strip_ansi rest.
Proof.
  intros Hparams Hinters Hfinal. rewrite _strip_ansi_cons.
  assert (match_items ansi_pattern
            (ESC :: LBRACKET :: params ++ inters ++ final :: rest) = Some rest) as ->.
  { apply ansi_match_iff, Matches_ansi_csi. by exists params, inters, final. }
  done.
Qed.

Lemma _strip_ansi_drops_sequence_witness :
  _strip_ansi (ESC :: LBRACKET :: txt "1;31" ++ txt " " ++ 109 :: txt "red")
  = _strip_ansi (txt "red").
Proof.
  apply (_strip_ansi_drops_sequence (txt "1;31") (txt " ") 109 (txt "red")).
  - repeat constructor.
  - repeat constructor.
  - reflexivity.
Defined.

(** ** What the reassembler does to the queue and to the text *)

Lemma emitted_as_no_nl strip_ansi line : NL ∉ line -> NL ∉ emitted_as strip_ansi line.
Proof.
  intros Hline. destruct strip_ansi; [|done]. simpl.
  intros H. apply Hline. eapply elem_of_sublist; [done|apply _strip_ansi_sublist].
Qed.

(** X5. A feed never removes or reorders what is on the queue: the queue
    after the feed is the queue before it followed by the new lines, none
    of which holds a newline, filtered or not. The feed changes nothing of
    the listener but its buffer. *)
Theorem feed_only_appends (text_received : Text) (self : _SocketListener.t) (q : Queue.t) :
  exists self' new,
    _SocketListener.feed text_received self q = Some (self', q ++ new)
    /\ Forall (fun line => NL ∉ line) new
    /\ _SocketListener.strip_ansi self' = _SocketListener.strip_ansi self
    /\ _SocketListener.shared_queue self' = _SocketListener.shared_queue self
    /\ _SocketListener.socket self' = _SocketListener.socket self.
Proof.
  unfold _SocketListener.feed. rewrite _parse_buffer_spec.
  eexists _, _. split_and!; try done.
  apply Forall_fmap. eapply Forall_impl; [apply complete_lines_no_nl|].
  intros line Hline. by apply emitted_as_no_nl.
Qed.

(** X6. Without the escape filter nothing of the text is lost or altered:
    the queued lines, each followed by a newline, and then the content of
    the buffer spell the concatenation of the chunks fed. *)
Theorem reassembly_loses_nothing (shared_queue socket : nat) (chunks : list Text) :
  exists self' q',
    _SocketListener.feed_all chunks
      (_SocketListener.__init__ shared_queue socket false) Queue.new
    = Some (self', q')
    /\ concat chunks
       = concat (map (fun line => line ++ [NL]) q')
         ++ StringIO.getvalue (_SocketListener.buffer self').
Proof.
  rewrite feed_all_spec by apply settled_init. eexists _, _. split; [done|].
  simpl. unfold emitted_as. rewrite map_id. apply lines_join.
Qed.

Lemma count_nl_free s : NL ∉ s -> count_nl s = 0%nat.
Proof.
  induction s as [|c s IH]; [done|].
  rewrite not_elem_of_cons. intros [Hc Hs]. simpl.
  destruct (N.eqb_spec c NL); [congruence|]. by apply IH.
Qed.

Lemma count_nl_line l s : NL ∉ l -> count_nl (l ++ NL :: s) = S (count_nl s).
Proof.
  induction l as [|c l IH]; [done|].
  rewrite not_elem_of_cons. intros [Hc Hl]. simpl.
  destruct (N.eqb_spec c NL); [congruence|]. by apply IH.
Qed.

Lemma complete_lines_count s : length (complete_lines s) = count_nl s.
Proof.
  induction s as [s Hs | l s Hl IH] using text_lines_ind.
  - by rewrite complete_lines_free, count_nl_free.
  - rewrite complete_lines_line, count_nl_line by done. simpl. by rewrite IH.
Qed.

(** X7. Every newline received puts exactly one line on the queue, empty
    lines included: after any chunks, fed to a new listener, the queue
    holds as many lines as the text so far holds newlines, with the filter
    or without. *)
Theorem one_line_per_newline
    (shared_queue socket : nat) (strip_ansi : bool) (chunks : list Text) :
  exists self' q',
    _SocketListener.feed_all chunks
      (_SocketListener.__init__ shared_queue socket strip_ansi) Queue.new
    = Some (self', q')
    /\ length q' = count_nl (concat chunks).
Proof.
  rewrite feed_all_spec by apply settled_init. eexists _, _. split; [done|].
  simpl. by rewrite length_map, complete_lines_count.
Qed.

(** ** Bytes and chunk boundaries *)

Lemma decoded_inv c r s :
  decoded c r = Return s -> exists s', r = Return s' /\ s = c :: s'.
Proof. destruct r as [s'|e]; simpl; [|done]. intros [= <-]. eauto. Qed.

Lemma then_text_decoded c s r : then_text (c :: s) r = decoded c (then_text s r).
Proof. by destruct r. Qed.

Lemma decode_utf8_app_upto n :
  forall a s b,
    (length a <= n)%nat ->
    decode_utf8 a = Return s ->
    decode_utf8 (a ++ b) = then_text s (decode_utf8 b).
Proof.
  induction n as [|n IH]; intros [|b0 a] s b Hn Ha;
    try (simpl in Hn; lia);
    try (injection Ha as <-; simpl; by destruct (decode_utf8 b)).
  simpl in Hn. cbn [decode_utf8 app] in Ha |- *.
  destruct (Byte.to_N b0 <? 128).
  { apply decoded_inv in Ha as (s' & Ha & ->).
    rewrite (IH a s' b) by (done || lia). apply eq_sym, then_text_decoded. }
  destruct (range 194 223 (Byte.to_N b0)).
  { destruct a as [|b1 a]; [done|]. cbn [app]. simpl in Hn.
    destruct (is_cont (Byte.to_N b1)); [|done].
    apply decoded_inv in Ha as (s' & Ha & ->).
    rewrite (IH a s' b) by (done || lia). apply eq_sym, then_text_decoded. }
  destruct (range 224 239 (Byte.to_N b0)).
  { destruct a as [|b1 [|b2 a]]; [done|done|]. cbn [app]. simpl in Hn.
    match type of Ha with (if ?c then _ else _) = _ => destruct c end; [|done].
    apply decoded_inv in Ha as (s' & Ha & ->).
    rewrite (IH a s' b) by (done || lia). apply eq_sym, then_text_decoded. }
  destruct (range 240 244 (Byte.to_N b0)); [|done].
  destruct a as [|b1 [|b2 [|b3 a]]]; [done|done|done|]. cbn [app]. simpl in Hn.
  match type of Ha with (if ?c then _ else _) = _ => destruct c end; [|done].
  apply decoded_inv in Ha as (s' & Ha & ->).
  rewrite (IH a s' b) by (done || lia). apply eq_sym, then_text_decoded.
Qed.

Lemma decode_utf8_app a s b :
  decode_utf8 a = Return s ->
  decode_utf8 (a ++ b) = then_text s (decode_utf8 b).
Proof. by apply (decode_utf8_app_upto (length a)). Qed.

Lemma decode_utf8_cut tail :
  cut_character tail = true -> decode_utf8 tail = Raise UnicodeDecodeError.
Proof.
  destruct tail as [|b0 [|b1 [|b2 [|b3 tail]]]]; try done;
    cbn [cut_character decode_utf8]; intros H%N.leb_le; unfold range.
  - destruct (N.ltb_spec (Byte.to_N b0) 128); [lia|].
    by repeat match goal with |- context [if ?c then _ else _] => destruct c end.
  - destruct (N.ltb_spec (Byte.to_N b0) 128); [lia|].
    destruct (N.leb_spec (Byte.to_N b0) 223); [lia|]. rewrite andb_false_r.
    by repeat match goal with |- context [if ?c then _ else _] => destruct c end.
  - destruct (N.ltb_spec (Byte.to_N b0) 128); [lia|].
    destruct (N.leb_spec (Byte.to_N b0) 223); [lia|]. rewrite andb_false_r.
    destruct (N.leb_spec (Byte.to_N b0) 239); [lia|]. rewrite andb_false_r.
    by repeat match goal with |- context [if ?c then _ else _] => destruct c end.
Qed.

Lemma recv_loop_decoded datas :
  forall chunks self q,
    Forall2 (fun data chunk => decode_utf8 data = Return chunk) datas chunks ->
    _SocketListener.recv_loop (map Received datas) self q
    = '(self', q') ← _SocketListener.feed_all chunks self q;
      Some (_SocketListener.InRecv self' q').
Proof.
  induction datas as [|data datas IH]; intros chunks self q Hall;
    inversion Hall as [|? chunk ? chunks' Hdata Hrest]; subst; [done|].
  cbn [map _SocketListener.recv_loop _SocketListener.loop_body
         _SocketListener.feed_all].
  rewrite Hdata.
  destruct (feed_total chunk self q) as (self1 & q1 & ->). simpl. by apply IH.
Qed.

Lemma decode_utf8_concat datas :
  forall chunks,
    Forall2 (fun data chunk => decode_utf8 data = Return chunk) datas chunks ->
    decode_utf8 (concat datas) = Return (concat chunks).
Proof.
  induction datas as [|data datas IH]; intros chunks Hall;
    inversion Hall as [|? chunk ? chunks' Hdata Hrest]; subst; [done|].
  simpl. rewrite (decode_utf8_app _ _ _ Hdata), (IH _ Hrest). done.
Qed.

(** X8. When every chunk received is well-formed UTF-8 by itself, the
    read loop is back in [recv] after the last one, and queue and buffer
    are those of the byte stream taken as a whole: the stream decodes, the
    queue holds the complete lines of its text and the buffer holds the
    remainder, wherever the stream was cut into chunks. *)
Theorem recv_loop_on_decodable_chunks
    (shared_queue socket : nat) (strip_ansi : bool) (datas : list (list byte)) :
  Forall (fun data => exists chunk, decode_utf8 data = Return chunk) datas ->
  exists text self',
    decode_utf8 (concat datas) = Return text
    /\ _SocketListener.__call__ (Some (map Received datas))
         (_SocketListener.__init__ shared_queue socket strip_ansi) Queue.new
       = Some (_SocketListener.InRecv self'
                 (map (emitted_as strip_ansi) (complete_lines text)))
    /\ StringIO.getvalue (_SocketListener.buffer self') = remainder text.
Proof.
  intros Hall.
  assert (exists chunks,
             Forall2 (fun data chunk => decode_utf8 data = Return chunk) datas chunks)
    as [chunks Hchunks].
  { induction Hall as [|data datas [chunk Hdata] _ [chunks IH]].
    - by exists [].
    - exists (chunk :: chunks). by constructor. }
  exists (concat chunks). eexists. split_and!.
  - by apply decode_utf8_concat.
  - simpl. rewrite (recv_loop_decoded _ _ _ _ Hchunks).
    rewrite feed_all_spec by apply settled_init. done.
  - done.
Qed.

Lemma recv_loop_on_decodable_chunks_witness :
  exists text self',
    decode_utf8 (concat [[xc3; xa9]; [x0a; x41]]) = Return text
    /\ _SocketListener.__call__ (Some (map Received [[xc3; xa9]; [x0a; x41]]))
         (_SocketListener.__init__ 0 0 false) Queue.new
       = Some (_SocketListener.InRecv self'
                 (map (emitted_as false) (complete_lines text)))
    /\ StringIO.getvalue (_SocketListener.buffer self') = remainder text.
Proof.
  apply (recv_loop_on_decodable_chunks 0 0 false [[xc3; xa9]; [x0a; x41]]).
  repeat constructor; eexists; vm_compute; reflexivity.
Defined.

(** X9. Decoding is per chunk: a chunk that ends inside a multi-byte
    character ends the listener with [UnicodeDecodeError], in whatever
    state it is and although the bytes before the cut are well-formed and
    the rest of the character would have come with the next receive.
    Nothing of that chunk reaches the queue. *)
Theorem chunk_cut_inside_character_ends_listener
    (whole tail : list byte) (conn : list Recv)
    (self : _SocketListener.t) (q : Queue.t) :
  (exists s, decode_utf8 whole = Return s) ->
  cut_character tail = true ->
  _SocketListener.__call__ (Some (Received (whole ++ tail) :: conn)) self q
  = Some (_SocketListener.Exited UnicodeDecodeError self q).
Proof.
  intros [s Hwhole] Htail. simpl.
  by rewrite (decode_utf8_app _ _ _ Hwhole), (decode_utf8_cut _ Htail).
Qed.

Lemma chunk_cut_inside_character_ends_listener_witness :
  decode_utf8 [x61; xc3; xa9; x0a] = Return [97; 233; 10]
  /\ _SocketListener.__call__
       (Some [Received ([x61] ++ [xc3]); Received [xa9; x0a]])
       (_SocketListener.__init__ 0 0 false) Queue.new
     = Some (_SocketListener.Exited UnicodeDecodeError
               (_SocketListener.__init__ 0 0 false) Queue.new).
Proof.
  split; [vm_compute; reflexivity|].
  apply (chunk_cut_inside_character_ends_listener [x61] [xc3]).
  - eexists. vm_compute. reflexivity.
  - vm_compute. reflexivity.
Defined.

(** X10. ASCII bytes decode to themselves, so for a peer that sends ASCII
    only the chunk boundaries never matter: after any chunks the queue
    holds the complete lines of all the bytes received. *)
Theorem ascii_stream_never_fails
    (shared_queue socket : nat) (strip_ansi : bool) (datas : list (list byte)) :
  Forall (Forall (fun b => Byte.to_N b < 128)) datas ->
  exists self',
    _SocketListener.__call__ (Some (map Received datas))
      (_SocketListener.__init__ shared_queue socket strip_ansi) Queue.new
    = Some (_SocketListener.InRecv self'
              (map (emitted_as strip_ansi)
                 (complete_lines (map Byte.to_N (concat datas))))).
Proof.
  intros Hall.
  assert (forall data, Forall (fun b => Byte.to_N b < 128) data ->
                       decode_utf8 data = Return (map Byte.to_N data)) as Hascii.
  { induction 1 as [|b data Hb _ IH]; [done|].
    cbn [decode_utf8 map]. apply N.ltb_lt in Hb. by rewrite Hb, IH. }
  assert (Forall2 (fun data chunk => decode_utf8 data = Return chunk)
            datas (map (map Byte.to_N) datas)) as Hchunks.
  { induction Hall as [|data datas Hdata _ IH]; constructor; [by apply Hascii|done]. }
  eexists. simpl. rewrite (recv_loop_decoded _ _ _ _ Hchunks).
  rewrite feed_all_spec by apply settled_init. simpl.
  do 4 f_equal. induction datas as [|data datas IH]; [done|].
  simpl. rewrite map_app. f_equal. apply IH.
  - by inversion Hall.
  - by inversion Hchunks.
Qed.

Lemma ascii_stream_never_fails_witness :
  exists self',
    _SocketListener.__call__
      (Some (map Received [ascii_bytes "fo"; ascii_bytes "o" ++ [x0a]]))
      (_SocketListener.__init__ 0 0 true) Queue.new
    = Some (_SocketListener.InRecv self'
              (map (emitted_as true)
                 (complete_lines
                    (map Byte.to_N (concat [ascii_bytes "fo"; ascii_bytes "o" ++ [x0a]]))))).
Proof.
  apply (ascii_stream_never_fails 0 0 true [ascii_bytes "fo"; ascii_bytes "o" ++ [x0a]]).
  repeat constructor.
Defined.

(** ** Polling *)





(** ** Construction, use and disposal in the world *)

(** The world a successful construction leaves. *)
Lemma __init___on_free_path resolve socket_filepath strip_ansi w :
  fs w !! resolve socket_filepath = None ->
  resolve socket_filepath ∉ denied w ->
  UnixSocketQueue.__init__ resolve socket_filepath strip_ansi w
  = (Return (),
     UnixSocketQueue.mk strip_ansi (resolve socket_filepath)
       (Some (length (sockets w))) (Some (length (queues w))),
     mkWorld (<[resolve socket_filepath := SocketFile]> (fs w)) (denied w)
       (sockets w ++ [mkSocket (Some (resolve socket_filepath)) true false])
       (queues w ++ [Queue.new])
       (processes w
          ++ [mkProcess
                (_SocketListener.__init__ (length (queues w)) (length (sockets w))
                   strip_ansi)
                Accepting true])
       (stdout w ++ ["socket created: " +:+ resolve socket_filepath])
       (stderr w)).
Proof.
  intros Hfree Hallowed.
  unfold UnixSocketQueue.__init__, path_exists, socket_socket, socket_bind.
  rewrite Hfree. rewrite bool_decide_eq_false_2 by (by intros [? [=]]).
  cbn [denied with_sockets]. rewrite bool_decide_eq_false_2 by done.
  unfold path_is_socket. cbn [fs with_fs with_sockets].
  rewrite lookup_insert_eq.
  unfold queue_new, process_start, socket_listen, print.
  cbn [sockets queues processes stdout stderr fs denied with_fs with_sockets
       with_queues with_processes with_stdout _SocketListener.socket
       _SocketListener.__init__].
  rewrite <- (Nat.add_0_r (length (sockets w))), !alter_app_r, Nat.add_0_r.
  done.
Qed.



(** X13. A path serves one instance at a time: once a construction has
    succeeded, every further construction at the same path raises the
    "file exists" exception and leaves the world as it is, so the
    first instance's socket file, queue and process are not disturbed. *)
Theorem second_init_at_same_path_refused
    (resolve : string -> string) (socket_filepath : string)
    (strip_ansi strip_ansi' : bool) (w : World) :
  fs w !! resolve socket_filepath = None ->
  resolve socket_filepath ∉ denied w ->
  exists self w' msg self',
    UnixSocketQueue.__init__ resolve socket_filepath strip_ansi w = (Return (), self, w')
    /\ UnixSocketQueue.__init__ resolve socket_filepath strip_ansi' w'
       = (Raise (Exception msg), self', w').
Proof.
  intros Hfree Hallowed. rewrite __init___on_free_path by done.
  eexists _, _, _, _. split; [done|].
  unfold UnixSocketQueue.__init__, path_exists. cbn [fs].
  rewrite lookup_insert_eq. rewrite bool_decide_eq_true_2 by done. done.
Qed.

Lemma second_init_at_same_path_refused_witness :
  exists self w' msg self',
    UnixSocketQueue.__init__ (fun p => p) "/tmp/blah13" false empty_world
    = (Return (), self, w')
    /\ UnixSocketQueue.__init__ (fun p => p) "/tmp/blah13" true w'
       = (Raise (Exception msg), self', w').
Proof.
  apply (second_init_at_same_path_refused (fun p => p) "/tmp/blah13" false true
           empty_world).
  - vm_compute. reflexivity.
  - apply (bool_decide_unpack _). vm_compute. exact I.
Defined.

(** X14. Construction and disposal undo each other on the file system:
    after a successful construction, disposing of the instance removes
    the socket file, so the file system is what it was before, closes
    the instance's socket and reports nothing; the path can then be used
    for a new instance. The listener process is not ended by disposal. *)
Theorem init_then_dispose_frees_path
    (resolve : string -> string) (socket_filepath : string) (strip_ansi : bool)
    (w : World) :
  fs w !! resolve socket_filepath = None ->
  resolve socket_filepath ∉ denied w ->
  exists self w',
    UnixSocketQueue.__init__ resolve socket_filepath strip_ansi w = (Return (), self, w')
    /\ fs (UnixSocketQueue.dispose self w') = fs w
    /\ sockets (UnixSocketQueue.dispose self w')
       = sockets w ++ [mkSocket (Some (resolve socket_filepath)) true true]
    /\ stderr (UnixSocketQueue.dispose self w') = stderr w
    /\ processes (UnixSocketQueue.dispose self w') = processes w'
    /\ exists self'' w'',
         UnixSocketQueue.__init__ resolve socket_filepath strip_ansi
           (UnixSocketQueue.dispose self w')
         = (Return (), self'', w'').
Proof.
  intros Hfree Hallowed. rewrite __init___on_free_path by done.
  eexists _, _. split; [done|].
  assert (forall w0 : World,
            fs w0 = <[resolve socket_filepath := SocketFile]> (fs w) ->
            denied w0 = denied w ->
            os_unlink (resolve socket_filepath) w0
            = (Return (), with_fs (fs w) w0)) as Hunlink.
  { intros w0 Hfs Hdenied. unfold os_unlink.
    rewrite Hfs, lookup_insert_eq, Hdenied.
    rewrite bool_decide_eq_false_2 by done. by rewrite delete_insert_id. }
  unfold UnixSocketQueue.dispose, UnixSocketQueue.__del__, path_unlink.
  cbn [UnixSocketQueue.socket_obj UnixSocketQueue.socket_filepath_obj].
  rewrite Hunlink by done.
  unfold socket_close. cbn [sockets fs stderr processes with_fs with_sockets].
  rewrite <- (Nat.add_0_r (length (sockets w))), alter_app_r.
  split_and!; try done.
  eexists _, _. by apply __init___on_free_path.
Qed.

Lemma init_then_dispose_frees_path_witness :
  exists self w',
    UnixSocketQueue.__init__ (fun p => p) "/tmp/blah13" false empty_world
    = (Return (), self, w')
    /\ fs (UnixSocketQueue.dispose self w') = ∅.
Proof.
  destruct (init_then_dispose_frees_path (fun p => p) "/tmp/blah13" false empty_world)
    as (self & w' & H & Hfs & _).
  - vm_compute. reflexivity.
  - apply (bool_decide_unpack _). vm_compute. exact I.
  - exists self, w'. split; [exact H|exact Hfs].
Defined.

(** X15. The socket is created before it is bound: when [bind] raises,
    [__init__] lets the exception through with the new socket object
    allocated, unbound and open, and with no socket file, no queue and no
    process created. Disposing of the abandoned instance closes that
    socket and reports nothing. *)
Theorem init_bind_failure_leaves_socket
    (resolve : string -> string) (socket_filepath : string) (strip_ansi : bool)
    (w : World) :
  fs w !! resolve socket_filepath = None ->
  resolve socket_filepath ∈ denied w ->
  exists self w',
    UnixSocketQueue.__init__ resolve socket_filepath strip_ansi w
    = (Raise PermissionError, self, w')
    /\ UnixSocketQueue.socket_obj self = Some (length (sockets w))
    /\ UnixSocketQueue.data self = None
    /\ w' = with_sockets (sockets w ++ [mkSocket None false false]) w
    /\ UnixSocketQueue.dispose self w'
       = with_sockets (sockets w ++ [mkSocket None false true]) w.
Proof.
  intros Hfree Hdenied.
  unfold UnixSocketQueue.__init__, path_exists, socket_socket, socket_bind.
  rewrite Hfree. rewrite bool_decide_eq_false_2 by (by intros [? [=]]).
  cbn [denied with_sockets]. rewrite bool_decide_eq_true_2 by done.
  eexists _, _. split_and!; try done.
  unfold UnixSocketQueue.dispose, UnixSocketQueue.__del__, path_unlink, os_unlink.
  cbn [UnixSocketQueue.socket_obj UnixSocketQueue.socket_filepath_obj].
  unfold socket_close. cbn [fs sockets with_sockets]. rewrite Hfree.
  rewrite <- (Nat.add_0_r (length (sockets w))), alter_app_r. done.
Qed.

Lemma init_bind_failure_leaves_socket_witness :
  let w := mkWorld ∅ {["/tmp/blah13"]} [] [] [] [] [] in
  exists self w',
    UnixSocketQueue.__init__ (fun p => p) "/tmp/blah13" false w
    = (Raise PermissionError, self, w')
    /\ sockets w' = [mkSocket None false false]
    /\ sockets (UnixSocketQueue.dispose self w') = [mkSocket None false true].
Proof.
  intros w.
  destruct (init_bind_failure_leaves_socket (fun p => p) "/tmp/blah13" false w)
    as (self & w' & H & _ & _ & Hw' & Hd).
  - vm_compute. reflexivity.
  - apply (bool_decide_unpack _). vm_compute. exact I.
  - exists self, w'. split_and!; [exact H|by rewrite Hw'|by rewrite Hd].
Defined.

Lemma world_eta w :
  with_queues (queues w) (with_processes (processes w) w) = w.
Proof. by destruct w. Qed.

Lemma feed_shared_queue text_received self q self' q' :
  _SocketListener.feed text_received self q = Some (self', q') ->
  _SocketListener.shared_queue self' = _SocketListener.shared_queue self.
Proof.
  unfold _SocketListener.feed. rewrite _parse_buffer_spec. by intros [= <- _].
Qed.

Lemma deliver_all_spec pid d datas :
  forall chunks w self q self' q',
    Forall2 (fun data chunk => decode_utf8 data = Return chunk) datas chunks ->
    processes w !! pid = Some (mkProcess self Receiving d) ->
    queues w !! _SocketListener.shared_queue self = Some q ->
    _SocketListener.feed_all chunks self q = Some (self', q') ->
    deliver_all pid datas w
    = Some (with_queues (<[_SocketListener.shared_queue self := q']> (queues w))
              (with_processes (<[pid := mkProcess self' Receiving d]> (processes w)) w)).
Proof.
  induction datas as [|data datas IH]; intros chunks w self q self' q' Hall Hproc Hq;
    inversion Hall as [|? chunk ? chunks' Hdata Hrest]; subst.
  - intros [= <- <-]. simpl. rewrite !list_insert_id by done. by rewrite world_eta.
  - cbn [_SocketListener.feed_all deliver_all].
    destruct (_SocketListener.feed chunk self q) as [[self1 q1]|] eqn:Hfeed; [|done].
    simpl. intros Hfeeds.
    pose proof (feed_shared_queue _ _ _ _ _ Hfeed) as Hsq.
    unfold peer_delivers. rewrite Hproc. simpl. rewrite Hq. simpl.
    unfold _SocketListener.loop_body. rewrite Hdata, Hfeed. simpl.
    erewrite (IH chunks' _ self1 q1 self' q' Hrest); [| | |exact Hfeeds].
    + cbn [queues processes with_queues with_processes]. rewrite Hsq.
      by rewrite !list_insert_insert_eq.
    + cbn [processes with_queues with_processes].
      apply list_lookup_insert_eq. by eapply lookup_lt_Some.
    + cbn [queues with_queues]. rewrite Hsq.
      apply list_lookup_insert_eq. by eapply lookup_lt_Some.
Qed.

Lemma poll_times_spec self data n :
  forall (w : World) (q : Queue.t),
    UnixSocketQueue.data self = Some data ->
    queues w !! data = Some q ->
    poll_times n self w
    = Some (map Return (take n q) ++ replicate (n - length q) (Raise Empty),
            with_queues (<[data := drop n q]> (queues w)) w).
Proof.
  induction n as [|n IH]; intros w q Hdata Hq.
  - simpl. rewrite drop_0, list_insert_id by done. by destruct w.
  - cbn [poll_times]. unfold UnixSocketQueue.get_nowait. rewrite Hdata.
    cbv beta iota. rewrite Hq. simpl.
    destruct q as [|line q]; cbn [Queue.get_nowait].
    + simpl. rewrite (IH w [] Hdata Hq). simpl.
      by rewrite take_nil, drop_nil, Nat.sub_0_r.
    + simpl. rewrite (IH _ q Hdata).
      * cbn [queues with_queues]. by rewrite list_insert_insert_eq.
      * cbn [queues with_queues]. apply list_lookup_insert_eq.
        by eapply lookup_lt_Some.
Qed.

(** X16. End to end, for any world and any stream: a queue is constructed
    on a free path, the peer connects and writes chunks that are each
    well-formed UTF-8. Then the byte stream as a whole decodes, and [n]
    polls through the instance return the first [n] complete lines of its
    text in order (filtered when [strip_ansi] is set), then [Empty]; the
    polls change nothing in the world but the instance's own queue. *)
Theorem construct_connect_send_poll
    (resolve : string -> string) (socket_filepath : string) (strip_ansi : bool)
    (w : World) (datas : list (list byte)) (n : nat) :
  fs w !! resolve socket_filepath = None ->
  resolve socket_filepath ∉ denied w ->
  Forall (fun data => exists chunk, decode_utf8 data = Return chunk) datas ->
  exists self w1 w2 w3 text,
    UnixSocketQueue.__init__ resolve socket_filepath strip_ansi w = (Return (), self, w1)
    /\ peer_connects (length (processes w)) w1 = Some w2
    /\ deliver_all (length (processes w)) datas w2 = Some w3
    /\ decode_utf8 (concat datas) = Return text
    /\ let lines := map (emitted_as strip_ansi) (complete_lines text) in
       poll_times n self w3
       = Some (map Return (take n lines) ++ replicate (n - length lines) (Raise Empty),
               with_queues (<[length (queues w) := drop n lines]> (queues w3)) w3).
Proof.
  intros Hfree Hallowed Hall.
  assert (exists chunks,
             Forall2 (fun data chunk => decode_utf8 data = Return chunk) datas chunks)
    as [chunks Hchunks].
  { induction Hall as [|data datas' [chunk Hdata] _ [chunks IH]].
    - by exists [].
    - exists (chunk :: chunks). by constructor. }
  rewrite __init___on_free_path by done.
  set (self0 := _SocketListener.__init__ (length (queues w)) (length (sockets w))
                  strip_ansi).
  eexists _, _, _, _, (concat chunks). split_and!.
  - done.
  - unfold peer_connects. cbn [processes].
    rewrite list_lookup_middle by done. done.
  - eapply (deliver_all_spec _ true datas chunks _ self0 Queue.new); [done| | |].
    + cbn [processes with_processes]. apply list_lookup_insert_eq.
      rewrite length_app. simpl. lia.
    + cbn [queues with_processes]. by apply list_lookup_middle.
    + apply feed_all_spec, settled_init.
  - by apply decode_utf8_concat.
  - intros lines. erewrite poll_times_spec; [done|done|].
    cbn [queues with_queues]. simpl. apply list_lookup_insert_eq.
    rewrite length_app. simpl. lia.
Qed.

Lemma construct_connect_send_poll_witness :
  exists self w1 w2 w3 polls w4,
    UnixSocketQueue.__init__ (fun p => p) "/tmp/blah13" true empty_world
    = (Return (), self, w1)
    /\ peer_connects 0 w1 = Some w2
    /\ deliver_all 0 [ascii_bytes "fo"; ascii_bytes "o" ++ [x0a; xc3; xa9]] w2 = Some w3
    /\ poll_times 2 self w3 = Some (polls, w4)
    /\ polls = [Return (txt "foo"); Raise Empty].
Proof.
  destruct (construct_connect_send_poll (fun p => p) "/tmp/blah13" true empty_world
              [ascii_bytes "fo"; ascii_bytes "o" ++ [x0a; xc3; xa9]] 2)
    as (self & w1 & w2 & w3 & text & H1 & H2 & H3 & H4 & H5).
  - vm_compute. reflexivity.
  - apply (bool_decide_unpack _). vm_compute. exact I.
  - repeat constructor; eexists; vm_compute; reflexivity.
  - exists self, w1, w2, w3. eexists _, _. split_and!; [exact H1|exact H2|exact H3|exact H5|].
    vm_compute in H4. injection H4 as <-. vm_compute. reflexivity.
Defined.

(** X17. Instances do not share their queues: of two instances
    constructed one after the other on different free paths, each has a
    queue of its own, and what the peer of the first one sends never
    shows up at the second: a poll of the second still raises [Empty]. *)
Theorem instances_do_not_share_queues
    (resolve : string -> string) (path1 path2 : string) (strip1 strip2 : bool)
    (w : World) (datas : list (list byte)) :
  resolve path1 <> resolve path2 ->
  fs w !! resolve path1 = None ->
  fs w !! resolve path2 = None ->
  resolve path1 ∉ denied w ->
  resolve path2 ∉ denied w ->
  Forall (fun data => exists chunk, decode_utf8 data = Return chunk) datas ->
  exists self1 w1 self2 w2 w3 w4,
    UnixSocketQueue.__init__ resolve path1 strip1 w = (Return (), self1, w1)
    /\ UnixSocketQueue.__init__ resolve path2 strip2 w1 = (Return (), self2, w2)
    /\ UnixSocketQueue.data self1 <> UnixSocketQueue.data self2
    /\ peer_connects (length (processes w)) w2 = Some w3
    /\ deliver_all (length (processes w)) datas w3 = Some w4
    /\ UnixSocketQueue.get_nowait self2 w4 = Some (Raise Empty, w4).
Proof.
  intros Hne Hfree1 Hfree2 Hallowed1 Hallowed2 Hall.
  assert (exists chunks,
             Forall2 (fun data chunk => decode_utf8 data = Return chunk) datas chunks)
    as [chunks Hchunks].
  { induction Hall as [|data datas' [chunk Hdata] _ [chunks IH]].
    - by exists [].
    - exists (chunk :: chunks). by constructor. }
  pose proof (__init___on_free_path resolve path1 strip1 w Hfree1 Hallowed1) as H1.
  match type of H1 with _ = (_, ?s, ?v) => set (self1 := s) in *; set (w1 := v) in * end.
  assert (fs w1 !! resolve path2 = None) as Hfree2'
    by (by cbn [w1 fs]; rewrite lookup_insert_ne).
  pose proof (__init___on_free_path resolve path2 strip2 w1 Hfree2' Hallowed2) as H2.
  cbn [w1 sockets queues processes stdout stderr fs denied] in H2.
  set (self0 := _SocketListener.__init__ (length (queues w)) (length (sockets w)) strip1).
  exists self1, w1. eexists _, _, _, _. split_and!.
  - exact H1.
  - exact H2.
  - cbn [self1 UnixSocketQueue.data]. rewrite length_app. simpl. intros [=]. lia.
  - unfold peer_connects. cbn [processes].
    rewrite lookup_app_l by (rewrite length_app; simpl; lia).
    rewrite list_lookup_middle by done. done.
  - eapply (deliver_all_spec _ true datas chunks _ self0 Queue.new); [done| | |].
    + cbn [processes with_processes]. apply list_lookup_insert_eq.
      rewrite !length_app. simpl. lia.
    + cbn [queues with_processes]. simpl.
      rewrite lookup_app_l by (rewrite length_app; simpl; lia).
      by apply list_lookup_middle.
    + apply feed_all_spec, settled_init.
  - unfold UnixSocketQueue.get_nowait. cbn [UnixSocketQueue.data queues with_queues].
    simpl. rewrite list_lookup_insert_ne by (rewrite length_app; simpl; lia).
    rewrite list_lookup_middle by done. done.
Qed.

Lemma instances_do_not_share_queues_witness :
  exists self1 w1 self2 w2 w3 w4,
    UnixSocketQueue.__init__ (fun p => p) "/tmp/a" false empty_world
    = (Return (), self1, w1)
    /\ UnixSocketQueue.__init__ (fun p => p) "/tmp/b" false w1 = (Return (), self2, w2)
    /\ UnixSocketQueue.data self1 <> UnixSocketQueue.data self2
    /\ peer_connects 0 w2 = Some w3
    /\ deliver_all 0 [ascii_bytes "line" ++ [x0a]] w3 = Some w4
    /\ UnixSocketQueue.get_nowait self2 w4 = Some (Raise Empty, w4).
Proof.
  apply (instances_do_not_share_queues (fun p => p) "/tmp/a" "/tmp/b" false false
           empty_world [ascii_bytes "line" ++ [x0a]]).
  - vm_compute. discriminate.
  - vm_compute. reflexivity.
  - vm_compute. reflexivity.
  - apply (bool_decide_unpack _). vm_compute. exact I.
  - apply (bool_decide_unpack _). vm_compute. exact I.
  - repeat constructor; eexists; vm_compute; reflexivity.
Defined.
